(** * INDbox v1 firmware: ranging unit and distance stabilizer

    Shallow embedding of [firmware/indbox_v1.ino] (the filtered variant):
    [readUltrasonicMillimetersRaw], [isDistanceValid], [clampStep] and the
    distance-filter part of [loop].

    Data model.
    - [long] (32-bit signed on the ESP32) is [Z].  Signed overflow is
      undefined in C++; [filter_longs_in_range] shows that on every state
      the filter reaches, the [long] values it computes stay far inside the
      32-bit range, so no wrap-around is written into the definitions.
    - [float] is IEEE-754 binary32 with round to nearest even: the standard
      library's [spec_float] operations at [prec = 24], [emax = 128].
      The smoothing weight 0.25 is a power of two, so its product is exact
      and a fused multiply-add would compute the same value.
    - The three [static] filter variables of [loop] are the record
      [filter_state]; one sampled pass of [loop] is [loop_filter]. *)

From Stdlib Require Import ZArith QArith Qabs Qpower Qround Bool List Lia Lqa.
From Stdlib Require Import SpecFloat.
Import ListNotations.

Local Open Scope Z_scope.

(** ** binary32 arithmetic *)

Module F32.

Definition prec : Z := 24.
Definition emax : Z := 128.

Definition float : Type := spec_float.

Definition add : float -> float -> float := SFadd prec emax.
Definition sub : float -> float -> float := SFsub prec emax.
Definition mul : float -> float -> float := SFmul prec emax.
Definition div : float -> float -> float := SFdiv prec emax.

(** Conversion of an integer ([long] or [uint32_t]) to [float]. *)
Definition of_Z (z : Z) : float := binary_normalize prec emax z 0 false.

(** A decimal literal [n/d] is read as the nearest binary32 value; the
    correctly rounded quotient of two exactly representable integers is
    that value. *)
Definition of_decimal (n d : Z) : float := div (of_Z n) (of_Z d).

(** The value 0.25, the smoothing weight. *)
Definition quarter : float := S754_finite false 8388608 (-25).

(** The cast [(long)x]: truncation toward zero.  The cast is undefined in
    C++ on NaN and infinities; the model returns 0 there, and
    [state_ok_round_mm] shows the filter only casts in-range values. *)
Definition to_long (x : float) : Z :=
  match x with
  | S754_finite s m e =>
      cond_Zopp s (match e with
                   | Z0 => Zpos m
                   | Zpos p => Zpos m * 2 ^ Zpos p
                   | Zneg p => Zpos m / 2 ^ Zpos p
                   end)
  | _ => 0
  end.

(** The exact rational value of a finite float. *)
Definition to_Q (x : float) : Q :=
  match x with
  | S754_finite s m e => (inject_Z (cond_Zopp s (Zpos m)) * 2 ^ e)%Q
  | _ => 0%Q
  end.

Definition expo (x : float) : Z :=
  match x with
  | S754_finite _ _ e => e
  | _ => 0
  end.

(** Zero, or a normal number (24 significant bits) whose exponent lies
    between [lo] and [hi]. *)
Definition normal (lo hi : Z) (x : float) : Prop :=
  match x with
  | S754_zero _ => True
  | S754_finite _ m e => Zpos (digits2_pos m) = 24 /\ lo <= e <= hi
  | _ => False
  end.

(** The right shift of the rounding step.  [loc_inv m0 k mrs] says that
    [mrs] is [m0] shifted right by [k] bits, its round and sticky bits
    locating the dropped remainder against half of [2^k]. *)
Definition loc_inv (m0 k : Z) (mrs : shr_record) : Prop :=
  shr_m mrs = m0 / 2 ^ k /\
  (shr_r mrs = true <-> 2 ^ k <= 2 * (m0 mod 2 ^ k)) /\
  (shr_s mrs = true <-> (m0 mod 2 ^ k <> 0 /\ 2 * (m0 mod 2 ^ k) <> 2 ^ k)).

(** [rounds_to M V]: the integer [V] is a rounding of [M] to 24
    significant bits, both counted in the same unit.  No number [a * 2^j]
    with a 24-bit [a] lies strictly between them, and their distance is
    within the relative error [2^-24]. *)
Record rounds_to (M V : Z) : Prop := mk_rounds_to {
  rt_lower : forall a j, Z.abs a < 2 ^ 24 -> 0 <= j -> a * 2 ^ j <= M -> a * 2 ^ j <= V;
  rt_upper : forall a j, Z.abs a < 2 ^ 24 -> 0 <= j -> M <= a * 2 ^ j -> V <= a * 2 ^ j;
  rt_error : Z.abs (V - M) * 2 ^ 24 <= Z.abs M
}.

(** A bound that is itself a binary32 number whose last bit is worth at
    least [2^ez]. *)
Definition rep (ez : Z) (b : Q) : Prop :=
  exists a j, Z.abs a < 2 ^ 24 /\ ez <= j /\ (b == inject_Z a * 2 ^ j)%Q.

(** [r] is the rounding of the exact value [X], a multiple of [2^ez]. *)
Record rounded (lo ez : Z) (r : float) (X : Q) : Prop := mk_rounded {
  rd_normal : normal lo 104 r;
  rd_lower : forall b, rep ez b -> (b <= X)%Q -> (b <= to_Q r)%Q;
  rd_upper : forall b, rep ez b -> (X <= b)%Q -> (to_Q r <= b)%Q;
  rd_error : (Qabs (to_Q r - X) * inject_Z (2 ^ 24) <= Qabs X)%Q
}.

End F32.

(** ** Constants of the sketch *)

Definition US_ECHO_TIMEOUT_US : Z := 30000.
Definition SOUND_SPEED_MM_PER_US : F32.float := F32.of_decimal 343 1000.
Definition DIST_INVALID : Z := -1.

Definition DIST_MIN_MM : Z := 50.
Definition DIST_MAX_MM : Z := 2000.
Definition DIST_EMA_ALPHA : F32.float := F32.of_decimal 25 100.
Definition ENABLE_SLEW_LIMIT : bool := true.
Definition MAX_STEP_PER_SAMPLE_MM : Z := 80.

(** The literal [0.5f]. *)
Definition half : F32.float := F32.of_decimal 5 10.

(** ** Ranging unit *)

(** [readUltrasonicMillimetersRaw], as a function of the pulse width that
    [pulseIn] reports ([0] on timeout). *)
Definition readUltrasonicMillimetersRaw (duration_us : Z) : Z :=
  if duration_us =? 0 then DIST_INVALID
  else
    let mm := F32.mul (F32.mul (F32.of_Z duration_us) SOUND_SPEED_MM_PER_US) half in
    F32.to_long (F32.add mm half).

(** The tagged reading of the specification and the [long] that carries it
    in the sketch. *)
Inductive RawRange : Type :=
| Distance (mm : Z)
| NoEcho.

Definition raw_long (r : RawRange) : Z :=
  match r with
  | Distance mm => mm
  | NoEcho => DIST_INVALID
  end.

Definition measure (duration_us : Z) : RawRange :=
  if duration_us =? 0 then NoEcho
  else Distance (readUltrasonicMillimetersRaw duration_us).

(** ** Distance stabilizer *)

Definition isDistanceValid (mm : Z) : bool :=
  (mm >=? DIST_MIN_MM) && (mm <=? DIST_MAX_MM).

Definition clampStep (current target maxStep : Z) : Z :=
  let delta := target - current in
  if delta >? maxStep then current + maxStep
  else if delta <? - maxStep then current - maxStep
  else target.

Record filter_state : Type := mkState {
  hasValidDistance : bool;
  lastGoodMm : Z;
  distFiltered : F32.float
}.

Definition initial_state : filter_state :=
  mkState false 0 (F32.of_Z 0).

(** [(long)(x + 0.5f)], the rounding used for the slew limiter and for the
    printed value. *)
Definition round_mm (x : F32.float) : Z := F32.to_long (F32.add x half).

(** Step 1 of [loop]: validity check, sample-and-hold, seeding. *)
Definition accept (st : filter_state) (rawMm : Z) : filter_state :=
  if isDistanceValid rawMm then
    if negb (hasValidDistance st)
    then mkState true rawMm (F32.of_Z rawMm)
    else mkState (hasValidDistance st) rawMm (distFiltered st)
  else st.

(** Steps 2 and 3: the target, slew-limited once the filter is seeded. *)
Definition target_mm (st : filter_state) : Z :=
  let targetMm := if hasValidDistance st then lastGoodMm st else 0 in
  if ENABLE_SLEW_LIMIT && hasValidDistance st
  then clampStep (round_mm (distFiltered st)) targetMm MAX_STEP_PER_SAMPLE_MM
  else targetMm.

(** The smoothing assignment of step 4. *)
Definition ema (x : F32.float) (targetMm : Z) : F32.float :=
  F32.add x (F32.mul DIST_EMA_ALPHA (F32.sub (F32.of_Z targetMm) x)).

Definition smooth (st : filter_state) (targetMm : Z) : filter_state :=
  if hasValidDistance st
  then mkState (hasValidDistance st) (lastGoodMm st) (ema (distFiltered st) targetMm)
  else st.

Definition out_mm (st : filter_state) : Z :=
  if hasValidDistance st then round_mm (distFiltered st) else 0.

(** The distance part of one sampled pass of [loop]: the new state and the
    printed [dist_mm]. *)
Definition loop_filter (st : filter_state) (rawMm : Z) : filter_state * Z :=
  let st1 := accept st rawMm in
  let st2 := smooth st1 (target_mm st1) in
  (st2, out_mm st2).

Definition update (raw : RawRange) (st : filter_state) : Z * filter_state :=
  let '(st', out) := loop_filter st (raw_long raw) in (out, st').

Definition step (st : filter_state) (raw : RawRange) : filter_state :=
  snd (update raw st).

(** The stabilizer over a sequence of readings: per tick, the printed
    value and the state the tick leaves. *)
Fixpoint trace (st : filter_state) (inputs : list RawRange) : list (Z * filter_state) :=
  match inputs with
  | [] => []
  | r :: rest => update r st :: trace (step st r) rest
  end.

Definition outputs (st : filter_state) (inputs : list RawRange) : list Z :=
  map fst (trace st inputs).

Definition final_state (st : filter_state) (inputs : list RawRange) : filter_state :=
  fold_left step inputs st.

(** ** Specification predicates *)

(** The rational value of the smoothed distance lies in the validity
    interval. *)
Definition in_range (x : F32.float) : Prop :=
  (inject_Z DIST_MIN_MM <= F32.to_Q x <= inject_Z DIST_MAX_MM)%Q.

(** What holds of every state the filter reaches: once seeded, the held
    reading and the smoothed value are inside the validity interval. *)
Definition state_ok (st : filter_state) : Prop :=
  hasValidDistance st = true ->
  F32.normal (-18) (-13) (distFiltered st) /\ in_range (distFiltered st) /\
  DIST_MIN_MM <= lastGoodMm st <= DIST_MAX_MM.

(** The values of a 32-bit [long]. *)
Definition long_range (z : Z) : Prop := - 2 ^ 31 <= z < 2 ^ 31.

(** A reading the validity gate rejects. *)
Definition rejected (raw : RawRange) : Prop :=
  match raw with
  | NoEcho => True
  | Distance mm => mm < DIST_MIN_MM \/ mm > DIST_MAX_MM
  end.

(** [x'] lies between [x] and the reading [R]. *)
Definition toward (R : Z) (x x' : F32.float) : Prop :=
  ((F32.to_Q x <= inject_Z R)%Q -> (F32.to_Q x <= F32.to_Q x' <= inject_Z R)%Q) /\
  ((inject_Z R <= F32.to_Q x)%Q -> (inject_Z R <= F32.to_Q x' <= F32.to_Q x)%Q).

(** Millimetre rounding of [d * 0.343 / 2], ties upward. *)
Definition nearest_mm (d : Z) : Z :=
  Qfloor (inject_Z d * (343 # 1000) / 2 + (1 # 2))%Q.

(** Bounded universal check, for exhaustive verification by evaluation. *)
Fixpoint forall_from (f : Z -> bool) (start : Z) (n : nat) : bool :=
  match n with
  | O => true
  | S n' => f start && forall_from f (start + 1) n'
  end.

(** Upper bound on the distance to a constant target after a tick, from a
    bound on the distance before it. *)
Definition gap_step (g : Q) : Q :=
  let a := (g - 19)%Q in
  let b := ((3 # 4) * g + (1 # 4096))%Q in
  if Qle_bool a b then b else a.

Fixpoint gap_bound (n : nat) (g : Q) : Q :=
  match n with
  | O => g
  | S n' => Qred (gap_step (gap_bound n' g))
  end.

(** ** The sampled loop *)

Definition SAMPLE_INTERVAL_MS : Z := 33.

(** [uint32_t] arithmetic wraps modulo [2^32]. *)
Definition u32 (z : Z) : Z := z mod 2 ^ 32.

(** A digital input level, as [digitalRead] reports it. *)
Inductive level : Type := LOW | HIGH.

(** What one pass of [loop] can read from the board: [millis()], the two
    button pins, the potentiometer ADC, and the echo pulse width that
    [pulseIn] would report. *)
Record readings : Type := mkReadings {
  millis : Z;
  btn1_pin : level;
  btn2_pin : level;
  pot_adc : Z;
  echo_us : Z
}.

(** One printed line [btn1,btn2,pot,dist_mm]. *)
Record csv_record : Type := mkRecord {
  btn1 : Z;
  btn2 : Z;
  pot : Z;
  dist_mm : Z
}.

(** The [static] variables of [loop]. *)
Record loop_state : Type := mkLoop {
  lastSampleMs : Z;
  dist_state : filter_state
}.

Definition boot_state : loop_state := mkLoop 0 initial_state.

(** [(digitalRead(pin) == LOW) ? 1 : 0]. *)
Definition pressed (l : level) : Z :=
  match l with
  | LOW => 1
  | HIGH => 0
  end.

(** One pass of [loop]: nothing happens before the sample interval has
    elapsed; otherwise the inputs are read, the filter advances and one
    line is printed. *)
Definition loop (ls : loop_state) (hw : readings) : loop_state * option csv_record :=
  let nowMs := millis hw in
  if u32 (nowMs - lastSampleMs ls) <? SAMPLE_INTERVAL_MS then (ls, None)
  else
    let rawMm := readUltrasonicMillimetersRaw (echo_us hw) in
    let '(st', outMm) := loop_filter (dist_state ls) rawMm in
    (mkLoop nowMs st',
     Some (mkRecord (pressed (btn1_pin hw)) (pressed (btn2_pin hw)) (pot_adc hw) outMm)).

(** Repeated passes: the final state and the printed lines, each with the
    [millis()] value of its pass. *)
Fixpoint run_loop (ls : loop_state) (hws : list readings) : loop_state * list (Z * csv_record) :=
  match hws with
  | [] => (ls, [])
  | hw :: rest =>
      let '(ls', line) := loop ls hw in
      let '(ls'', lines) := run_loop ls' rest in
      (ls'', match line with
             | Some r => (millis hw, r) :: lines
             | None => lines
             end)
  end.

(** The passes on which the sample gate opens, given the time of the last
    sample. *)
Fixpoint sampled (last : Z) (hws : list readings) : list readings :=
  match hws with
  | [] => []
  | hw :: rest =>
      if u32 (millis hw - last) <? SAMPLE_INTERVAL_MS
      then sampled last rest
      else hw :: sampled (millis hw) rest
  end.

(** Successive times, each at least one sample interval after the one
    before in wrapping [uint32_t] arithmetic. *)
Fixpoint spaced (last : Z) (times : list Z) : Prop :=
  match times with
  | [] => True
  | t :: rest => SAMPLE_INTERVAL_MS <= u32 (t - last) /\ spaced t rest
  end.

(** ** The unfiltered firmware variant *)

Module Unfiltered.

Definition DIST_NO_ECHO : Z := -1.

Definition readUltrasonicMillimeters (duration_us : Z) : Z :=
  if duration_us =? 0 then DIST_NO_ECHO
  else
    let distance_mm :=
      F32.mul (F32.mul (F32.of_Z duration_us) SOUND_SPEED_MM_PER_US) half in
    F32.to_long (F32.add distance_mm half).

(** One pass of this variant's [loop]; its only [static] variable is
    [lastSampleMs]. *)
Definition loop (lastSampleMs : Z) (hw : readings) : Z * option csv_record :=
  let nowMs := millis hw in
  if u32 (nowMs - lastSampleMs) <? SAMPLE_INTERVAL_MS then (lastSampleMs, None)
  else
    let dist_mm := readUltrasonicMillimeters (echo_us hw) in
    (nowMs,
     Some (mkRecord (pressed (btn1_pin hw)) (pressed (btn2_pin hw)) (pot_adc hw) dist_mm)).

End Unfiltered.

(** ** The slew limiter on the 32-bit [long] *)

(** The two's-complement value a 32-bit signed result wraps to. *)
Definition wrap32 (z : Z) : Z := (z + 2 ^ 31) mod 2 ^ 32 - 2 ^ 31.

(** [clampStep] with the wrap-around of each [long] operation written
    out, as the ESP32 computes it. *)
Definition clampStep_long (current target maxStep : Z) : Z :=
  let delta := wrap32 (target - current) in
  if delta >? maxStep then wrap32 (current + maxStep)
  else if delta <? wrap32 (- maxStep) then wrap32 (current - maxStep)
  else target.

(** ** Predicates for the further properties *)

(** The integer [o'] lies between [o] and [R]. *)
Definition toward_mm (R o o' : Z) : Prop :=
  (o <= R -> o <= o' <= R) /\ (R <= o -> R <= o' <= o).

(** A reading that leaves a filter settled on [V] where it is. *)
Definition keeps (V : Z) (raw : RawRange) : Prop :=
  rejected raw \/ raw = Distance V.

(** * Correctness of the binary32 operations

    The rounding performed by [binary_normalize] is characterised against
    exact integer and rational arithmetic, for results in the normal
    range. *)

Module F32Facts.
Import F32.

(** ** The model on known binary32 facts *)

(** [2^24 + 1] is not representable and rounds to the even neighbour;
    [2^24 + 3] rounds up to [2^24 + 4]. *)
Example of_Z_ties_to_even :
  of_Z 16777217 = of_Z 16777216 /\ of_Z 16777219 = of_Z 16777220.
Proof. split; reflexivity. Qed.

(** [0.1f + 0.2f] is the binary32 number [0x3E99999A], that is
    [10066330 * 2^-25]. *)
Example add_tenths :
  add (of_decimal 1 10) (of_decimal 2 10) = S754_finite false 10066330 (-25).
Proof. reflexivity. Qed.

(** The cast truncates toward zero. *)
Example to_long_truncates :
  to_long (of_decimal 79 10) = 7 /\ to_long (of_decimal (-79) 10) = -7.
Proof. split; reflexivity. Qed.

(** ** Powers of two and bit counts *)

Lemma pow2_succ (k : Z) : 0 <= k -> 2 ^ (k + 1) = 2 * 2 ^ k.
Proof. intros. rewrite Z.pow_add_r by lia. change (2 ^ 1) with 2. lia. Qed.

Lemma pow2_pos (k : Z) : 0 <= k -> 0 < 2 ^ k.
Proof. intros. apply Z.pow_pos_nonneg; lia. Qed.

Lemma digits2_pos_bounds (p : positive) :
  2 ^ (Zpos (digits2_pos p) - 1) <= Zpos p < 2 ^ Zpos (digits2_pos p).
Proof.
  induction p as [p IH | p IH | ]; simpl digits2_pos.
  - rewrite Pos2Z.inj_succ. change (Zpos p~1) with (2 * Zpos p + 1).
    replace (Z.succ (Zpos (digits2_pos p)) - 1) with ((Zpos (digits2_pos p) - 1) + 1) by lia.
    unfold Z.succ. rewrite !pow2_succ by lia. lia.
  - rewrite Pos2Z.inj_succ. change (Zpos p~0) with (2 * Zpos p).
    replace (Z.succ (Zpos (digits2_pos p)) - 1) with ((Zpos (digits2_pos p) - 1) + 1) by lia.
    unfold Z.succ. rewrite !pow2_succ by lia. lia.
  - simpl. lia.
Qed.

Lemma digits2_pos_unique (p : positive) (d : Z) :
  2 ^ (d - 1) <= Zpos p < 2 ^ d -> Zpos (digits2_pos p) = d.
Proof.
  intros [Hlo Hhi].
  pose proof (digits2_pos_bounds p) as [Blo Bhi].
  assert (Hd : 0 < d).
  { destruct (Z_lt_le_dec 0 d) as [|Hle]; [assumption|].
    exfalso. destruct (Z.eq_dec d 0) as [->|]; [simpl in Hhi; lia|].
    rewrite (Z.pow_neg_r 2 d) in Hhi by lia. lia. }
  destruct (Z_lt_le_dec (Zpos (digits2_pos p)) d) as [Hlt|Hge].
  - exfalso.
    assert (2 ^ Zpos (digits2_pos p) <= 2 ^ (d - 1)) by (apply Z.pow_le_mono_r; lia).
    lia.
  - destruct (Z.eq_dec (Zpos (digits2_pos p)) d) as [|Hne]; [assumption|].
    exfalso.
    assert (2 ^ d <= 2 ^ (Zpos (digits2_pos p) - 1)) by (apply Z.pow_le_mono_r; lia).
    lia.
Qed.

(** ** The right shift with round and sticky bits *)

Lemma shr_1_div2 (mrs : shr_record) :
  0 <= shr_m mrs ->
  shr_1 mrs = Build_shr_record (shr_m mrs / 2) (Z.odd (shr_m mrs)) (shr_r mrs || shr_s mrs).
Proof.
  destruct mrs as [m r s]; simpl. intros Hm.
  destruct m as [|p|p]; [reflexivity| |lia].
  destruct p as [p|p|].
  - assert (E : Zpos p~1 / 2 = Zpos p)
      by (symmetry; apply Z.div_unique with 1; lia).
    rewrite E. reflexivity.
  - assert (E : Zpos p~0 / 2 = Zpos p)
      by (symmetry; apply Z.div_unique with 0; lia).
    rewrite E. reflexivity.
  - reflexivity.
Qed.

Lemma loc_inv_step (m0 k : Z) (mrs : shr_record) :
  0 <= m0 -> 0 <= k -> loc_inv m0 k mrs -> loc_inv m0 (k + 1) (shr_1 mrs).
Proof.
  intros Hm0 Hk (Hm & Hr & Hs).
  pose proof (pow2_pos k Hk) as Hp.
  assert (Hq : 0 <= m0 / 2 ^ k) by (apply Z.div_pos; lia).
  rewrite shr_1_div2 by lia.
  pose proof (Z.mod_pos_bound m0 (2 ^ k) Hp) as Hrem.
  assert (Hsplit : m0 mod 2 ^ (k + 1) = m0 mod 2 ^ k + 2 ^ k * ((m0 / 2 ^ k) mod 2)).
  { rewrite pow2_succ by lia. rewrite (Z.mul_comm 2). apply Z.rem_mul_r; lia. }
  pose proof (Z.mod_pos_bound (m0 / 2 ^ k) 2 ltac:(lia)) as Hbit.
  assert (Hodd : Z.odd (shr_m mrs) = true <-> (m0 / 2 ^ k) mod 2 = 1).
  { rewrite Hm. rewrite Zmod_odd. destruct (Z.odd (m0 / 2 ^ k)); split; intros; try reflexivity; try discriminate. }
  unfold loc_inv; cbn [shr_m shr_r shr_s]. rewrite Hsplit, pow2_succ by lia.
  split; [|split].
  - rewrite Hm. rewrite Z.div_div by lia. rewrite (Z.mul_comm 2). reflexivity.
  - rewrite Hodd.
    assert (Hb : (m0 / 2 ^ k) mod 2 = 0 \/ (m0 / 2 ^ k) mod 2 = 1) by lia.
    destruct Hb as [-> | ->]; lia.
  - rewrite orb_true_iff, Hr, Hs.
    assert (Hb : (m0 / 2 ^ k) mod 2 = 0 \/ (m0 / 2 ^ k) mod 2 = 1) by lia.
    destruct Hb as [-> | ->]; lia.
Qed.

(** [k] shifts drop [k] bits and leave the location of the remainder. *)
Lemma loc_inv_iter (m0 : Z) (p : positive) :
  0 <= m0 ->
  forall k mrs, 0 <= k -> loc_inv m0 k mrs ->
  loc_inv m0 (k + Zpos p) (iter_pos shr_1 p mrs).
Proof.
  intros Hm0. induction p as [p IH | p IH | ]; intros k mrs Hk H; simpl iter_pos.
  - replace (k + Zpos p~1) with (((k + 1) + Zpos p) + Zpos p) by lia.
    apply IH; [lia|]. apply IH; [lia|]. apply loc_inv_step; assumption.
  - replace (k + Zpos p~0) with ((k + Zpos p) + Zpos p) by lia.
    apply IH; [lia|]. apply IH; assumption.
  - apply loc_inv_step; assumption.
Qed.

Lemma loc_inv_init (m0 : Z) : loc_inv m0 0 (Build_shr_record m0 false false).
Proof.
  unfold loc_inv; simpl. rewrite Z.div_1_r, Z.mod_1_r.
  repeat split; intros; try discriminate; try lia.
Qed.

(** ** Rounding a positive mantissa *)

Lemma fexp_normal (x : Z) : -125 <= x -> fexp prec emax x = x - 24.
Proof. unfold fexp, emin, prec, emax. lia. Qed.

(** A mantissa of exactly 24 bits with an exponent in range is already
    rounded. *)
Lemma binary_round_aux_exact (s : bool) (m : positive) (e : Z) :
  Zpos (digits2_pos m) = 24 -> -149 <= e <= 104 ->
  binary_round_aux prec emax s (Zpos m) e loc_Exact = S754_finite s m e.
Proof.
  intros Hd He.
  unfold binary_round_aux, shr_fexp. cbn [shr_record_of_loc Zdigits2].
  rewrite Hd, fexp_normal by lia.
  replace (24 + e - 24 - e) with 0 by lia.
  cbn [shr shr_m loc_of_shr_record round_nearest_even Zdigits2 shr_record_of_loc].
  rewrite Hd, fexp_normal by lia.
  replace (24 + e - 24 - e) with 0 by lia.
  cbn [shr shr_m].
  replace (e <=? emax - prec) with true; [reflexivity|].
  symmetry. apply Z.leb_le. unfold emax, prec. lia.
Qed.

(** Rounding a mantissa of more than 24 bits: [k] bits are dropped. *)
Lemma binary_round_aux_shift (s : bool) (M : positive) (e k : Z) :
  0 < k -> Zpos (digits2_pos M) = k + 24 ->
  -149 <= e + k -> e + k + 1 <= 104 ->
  exists n e',
    binary_round_aux prec emax s (Zpos M) e loc_Exact = S754_finite s n e' /\
    Zpos (digits2_pos n) = 24 /\
    (e' = e + k \/ e' = e + k + 1) /\
    (exists c, 2 ^ 23 <= c <= 2 ^ 24 /\ Zpos n * 2 ^ (e' - e) = c * 2 ^ k) /\
    Z.abs (2 * (Zpos n * 2 ^ (e' - e) - Zpos M)) <= 2 ^ k.
Proof.
  intros Hk Hd Hlo Hhi.
  pose proof (digits2_pos_bounds M) as [Mlo Mhi]. rewrite Hd in Mlo, Mhi.
  replace (k + 24 - 1) with (23 + k) in Mlo by lia.
  rewrite (Z.add_comm k 24) in Mhi.
  rewrite Z.pow_add_r in Mlo, Mhi by lia.
  pose proof (pow2_pos k ltac:(lia)) as Hp.
  set (q := Zpos M / 2 ^ k).
  set (rem := Zpos M mod 2 ^ k).
  assert (HM : Zpos M = 2 ^ k * q + rem) by (apply Z.div_mod; lia).
  assert (Hrem : 0 <= rem < 2 ^ k) by (apply Z.mod_pos_bound; lia).
  assert (Hq : 2 ^ 23 <= q < 2 ^ 24) by (split; nia).
  unfold binary_round_aux, shr_fexp. cbn [shr_record_of_loc Zdigits2].
  rewrite Hd, fexp_normal by lia.
  replace (k + 24 + e - 24 - e) with k by lia.
  destruct k as [|pk|pk]; try lia.
  cbn [shr].
  pose proof (loc_inv_iter (Zpos M) pk ltac:(lia) 0 _ ltac:(lia) (loc_inv_init (Zpos M))) as Hinv.
  rewrite Z.add_0_l in Hinv.
  destruct (iter_pos shr_1 pk {| shr_m := Z.pos M; shr_r := false; shr_s := false |}) as [m1 r1 s1].
  destruct Hinv as (Hm1 & Hr1 & Hs1). cbn [shr_m shr_r shr_s] in *.
  fold q in Hm1. fold rem in Hr1, Hs1. subst m1.
  set (n1 := round_nearest_even q (loc_of_shr_record {| shr_m := q; shr_r := r1; shr_s := s1 |})).
  assert (Hn1 : (n1 = q /\ 2 * rem <= 2 ^ Zpos pk) \/ (n1 = q + 1 /\ 2 ^ Zpos pk <= 2 * rem)).
  { subst n1. destruct r1, s1; cbn [loc_of_shr_record round_nearest_even].
    - right. split; [reflexivity|]. apply Hr1; reflexivity.
    - assert (2 ^ Zpos pk <= 2 * rem) by (apply Hr1; reflexivity).
      assert (~ (rem <> 0 /\ 2 * rem <> 2 ^ Zpos pk)) by (intros C; apply Hs1 in C; discriminate).
      destruct (Z.even q); [left|right]; split; lia.
    - left. split; [reflexivity|].
      destruct (Z_le_gt_dec (2 ^ Zpos pk) (2 * rem)) as [C|C]; [apply Hr1 in C; discriminate|lia].
    - left. split; [reflexivity|].
      destruct (Z_le_gt_dec (2 ^ Zpos pk) (2 * rem)) as [C|C]; [apply Hr1 in C; discriminate|lia]. }
  clearbody n1.
  assert (Hn1r : 2 ^ 23 <= n1 <= 2 ^ 24) by lia.
  destruct n1 as [|pn|pn]; try lia.
  destruct (Z.eq_dec (Zpos pn) (2 ^ 24)) as [Hcarry|Hnc].
  - (* the mantissa carried into a 25th bit *)
    assert (Hpn : pn = (2 ^ 24)%positive) by (injection Hcarry; auto).
    subst pn. cbn [Zdigits2].
    change (Zpos (digits2_pos (2 ^ 24))) with 25.
    rewrite fexp_normal by lia.
    replace (25 + (e + Zpos pk) - 24 - (e + Zpos pk)) with 1 by lia.
    cbn [shr iter_pos shr_record_of_loc]. unfold shr_1. cbn [shr_m].
    change (Zpos (2 ^ 24)) with (2 ^ 24) in *.
    replace (e + Zpos pk + 1 <=? emax - prec) with true
      by (symmetry; apply Z.leb_le; unfold emax, prec; lia).
    exists (2 ^ 23)%positive, (e + Zpos pk + 1).
    split; [reflexivity|]. split; [reflexivity|]. split; [right; reflexivity|].
    replace (e + Zpos pk + 1 - e) with (Zpos pk + 1) by lia.
    rewrite pow2_succ by lia.
    change (Zpos (2 ^ 23)) with (2 ^ 23).
    split.
    + exists (2 ^ 24). split; [lia|]. change (2 ^ 24) with (2 ^ 23 * 2) at 1. ring.
    + lia.
  - assert (Hdn : Zpos (digits2_pos pn) = 24).
    { apply digits2_pos_unique. change (24 - 1) with 23. lia. }
    cbn [Zdigits2]. rewrite Hdn, fexp_normal by lia.
    replace (24 + (e + Zpos pk) - 24 - (e + Zpos pk)) with 0 by lia.
    cbn [shr shr_record_of_loc shr_m].
    replace (e + Zpos pk <=? emax - prec) with true
      by (symmetry; apply Z.leb_le; unfold emax, prec; lia).
    exists pn, (e + Zpos pk).
    split; [reflexivity|]. split; [assumption|]. split; [left; reflexivity|].
    replace (e + Zpos pk - e) with (Zpos pk) by lia.
    split.
    + exists (Zpos pn). split; [lia|reflexivity].
    + lia.
Qed.

(** ** Faithful rounding on integers *)

Lemma iter_xO_pow2 (m d : positive) :
  Zpos (Pos.iter xO m d) = Zpos m * 2 ^ Zpos d.
Proof.
  induction d as [|d IH] using Pos.peano_ind.
  - simpl. lia.
  - rewrite Pos.iter_succ, Pos2Z.inj_succ.
    change (Zpos (Pos.iter xO m d)~0) with (2 * Zpos (Pos.iter xO m d)).
    rewrite IH. unfold Z.succ. rewrite pow2_succ by lia. ring.
Qed.

Lemma rounds_to_refl (M : Z) : rounds_to M M.
Proof.
  constructor; intros; try assumption.
  replace (M - M) with 0 by lia. simpl. lia.
Qed.

Lemma rounds_to_opp (M V : Z) : rounds_to M V -> rounds_to (- M) (- V).
Proof.
  intros [Hl Hu He]. constructor.
  - intros a j Ha Hj H. specialize (Hu (- a) j). rewrite Z.abs_opp in Hu.
    specialize (Hu Ha Hj). lia.
  - intros a j Ha Hj H. specialize (Hl (- a) j). rewrite Z.abs_opp in Hl.
    specialize (Hl Ha Hj). lia.
  - replace (- V - - M) with (- (V - M)) by lia. rewrite !Z.abs_opp. assumption.
Qed.

(** A multiple [V] of [2^k] within half of [2^k] of a [k+24]-bit number
    [M] is a rounding of [M]. *)
Lemma rounds_to_grid (M V c k : Z) :
  0 < k -> V = c * 2 ^ k -> 2 ^ 23 <= c <= 2 ^ 24 ->
  2 ^ 23 * 2 ^ k <= M < 2 ^ 24 * 2 ^ k ->
  Z.abs (2 * (V - M)) <= 2 ^ k ->
  rounds_to M V.
Proof.
  intros Hk HV Hc HM Herr.
  pose proof (pow2_pos k ltac:(lia)) as Hp.
  assert (Hsplit : forall j, 0 <= j -> k <= j -> 2 ^ j = 2 ^ (j - k) * 2 ^ k).
  { intros j Hj Hkj. rewrite <- Z.pow_add_r by lia. f_equal. lia. }
  assert (Hsmall : forall j, 0 <= j -> j < k -> 2 * 2 ^ j <= 2 ^ k).
  { intros j Hj Hjk. rewrite <- pow2_succ by lia. apply Z.pow_le_mono_r; lia. }
  constructor.
  - intros a j Ha Hj H.
    destruct (Z_le_gt_dec a 0) as [Ha0|Ha0].
    { pose proof (pow2_pos j Hj). nia. }
    destruct (Z_le_gt_dec k j) as [Hkj|Hkj].
    + rewrite (Hsplit j Hj Hkj) in *.
      pose proof (pow2_pos (j - k) ltac:(lia)) as Hp'.
      set (A := a * 2 ^ (j - k)) in *.
      replace (a * (2 ^ (j - k) * 2 ^ k)) with (A * 2 ^ k) in * by (subst A; ring).
      subst V. assert (A <= c) by nia. nia.
    + specialize (Hsmall j Hj ltac:(lia)).
      pose proof (pow2_pos j Hj). nia.
  - intros a j Ha Hj H.
    destruct (Z_le_gt_dec a 0) as [Ha0|Ha0].
    { pose proof (pow2_pos j Hj). nia. }
    destruct (Z_le_gt_dec k j) as [Hkj|Hkj].
    + rewrite (Hsplit j Hj Hkj) in *.
      pose proof (pow2_pos (j - k) ltac:(lia)) as Hp'.
      set (A := a * 2 ^ (j - k)) in *.
      replace (a * (2 ^ (j - k) * 2 ^ k)) with (A * 2 ^ k) in * by (subst A; ring).
      subst V. assert (c <= A) by nia. nia.
    + specialize (Hsmall j Hj ltac:(lia)).
      pose proof (pow2_pos j Hj). exfalso. nia.
  - change (2 ^ 24) with (2 * 2 ^ 23). lia.
Qed.

(** The result of [binary_round] on a mantissa [M] at exponent [e]: a
    normal number whose value, counted in units of [2^e], is a rounding
    [V] of [M]. *)
Lemma binary_round_spec (s : bool) (M : positive) (e : Z) :
  -125 <= Zpos (digits2_pos M) + e <= 127 ->
  exists n e' V,
    binary_round prec emax s M e = S754_finite s n e' /\
    Zpos (digits2_pos n) = 24 /\
    -149 <= e' <= 104 /\
    Zpos (digits2_pos M) + e - 24 <= e' /\
    rounds_to (Zpos M) V /\ 0 < V /\
    ((e <= e' /\ V = Zpos n * 2 ^ (e' - e)) \/
     (e' <= e /\ Zpos n = V * 2 ^ (e - e'))).
Proof.
  intros Hr. set (d := Zpos (digits2_pos M)) in *.
  pose proof (digits2_pos_bounds M) as [Mlo Mhi]. fold d in Mlo, Mhi.
  assert (Hd : 0 < d) by (subst d; lia).
  unfold binary_round. fold d. rewrite fexp_normal by lia.
  unfold shl_align.
  replace (d + e - 24 - e) with (d - 24) by lia.
  destruct (d - 24) as [|pk|pk] eqn:Hk.
  - (* exactly 24 bits *)
    assert (d = 24) by lia.
    rewrite binary_round_aux_exact by (fold d; lia).
    exists M, e, (Zpos M).
    split; [reflexivity|]. split; [fold d; lia|].
    split; [lia|]. split; [fold d; lia|].
    split; [apply rounds_to_refl|]. split; [lia|].
    left. split; [lia|]. rewrite Z.sub_diag. simpl. lia.
  - (* more than 24 bits: rounded *)
    destruct (binary_round_aux_shift s M e (Zpos pk)) as (n & e' & Hres & Hdn & He' & (c & Hc & HV) & Herr);
      try (fold d; lia).
    exists n, e', (Zpos n * 2 ^ (e' - e)).
    split; [exact Hres|]. split; [exact Hdn|].
    split; [lia|]. split; [lia|].
    assert (Hp : 0 < 2 ^ Zpos pk) by (apply pow2_pos; lia).
    split; [|split].
    + apply rounds_to_grid with (c := c) (k := Zpos pk); try lia; try assumption.
      replace d with (Zpos pk + 24) in Mlo, Mhi by lia.
      replace (Zpos pk + 24 - 1) with (23 + Zpos pk) in Mlo by lia.
      rewrite (Z.add_comm (Zpos pk) 24) in Mhi.
      rewrite Z.pow_add_r in Mlo, Mhi by lia. lia.
    + rewrite HV. nia.
    + left. split; [lia|reflexivity].
  - (* fewer than 24 bits: padded with zero bits, exact *)
    assert (Hpk : Zpos pk = 24 - d) by lia.
    pose proof (iter_xO_pow2 M pk) as Hmz.
    assert (Hdz : Zpos (digits2_pos (Pos.iter xO M pk)) = 24).
    { assert (E1 : 2 ^ 23 = 2 ^ (d - 1) * 2 ^ (24 - d))
        by (rewrite <- Z.pow_add_r by lia; f_equal; lia).
      assert (E2 : 2 ^ 24 = 2 ^ d * 2 ^ (24 - d))
        by (rewrite <- Z.pow_add_r by lia; f_equal; lia).
      apply digits2_pos_unique. rewrite Hmz, Hpk.
      change (24 - 1) with 23. rewrite E1, E2.
      pose proof (pow2_pos (24 - d) ltac:(lia)). nia. }
    rewrite binary_round_aux_exact by lia.
    exists (Pos.iter xO M pk), (d + e - 24), (Zpos M).
    split; [reflexivity|]. split; [exact Hdz|].
    split; [lia|]. split; [lia|].
    split; [apply rounds_to_refl|]. split; [lia|].
    right. split; [lia|]. rewrite Hmz. f_equal. f_equal. lia.
Qed.

(** ** Rational values *)

Lemma pow2Q_pos (e : Z) : (0 < 2 ^ e)%Q.
Proof. apply Qpower_0_lt. reflexivity. Qed.

Lemma pow2Q_add (a b : Z) : (2 ^ (a + b) == 2 ^ a * 2 ^ b)%Q.
Proof. apply Qpower_plus. discriminate. Qed.

Lemma pow2Q_Z (n : Z) : 0 <= n -> (inject_Z (2 ^ n) == 2 ^ n)%Q.
Proof. intros. apply (Zpower_Qpower 2 n). assumption. Qed.

Lemma pow2Q_le (a b : Z) : a <= b -> (2 ^ a <= 2 ^ b)%Q.
Proof. intros. apply Qpower_le_compat_l; [assumption|]. discriminate. Qed.

Lemma pow2Q_split (j e : Z) :
  e <= j -> (2 ^ j == inject_Z (2 ^ (j - e)) * 2 ^ e)%Q.
Proof.
  intros. rewrite pow2Q_Z by lia. rewrite <- pow2Q_add.
  replace (j - e + e) with j by lia. reflexivity.
Qed.

Lemma scaled_le (a b e : Z) :
  (inject_Z a * 2 ^ e <= inject_Z b * 2 ^ e)%Q <-> a <= b.
Proof.
  rewrite Zle_Qle. pose proof (pow2Q_pos e).
  split; intros.
  - apply Qmult_le_r with (z := (2 ^ e)%Q); assumption.
  - apply Qmult_le_r; assumption.
Qed.

Lemma scaled_eq_units (n V e e' : Z) :
  (e <= e' /\ V = n * 2 ^ (e' - e)) \/ (e' <= e /\ n = V * 2 ^ (e - e')) ->
  (inject_Z n * 2 ^ e' == inject_Z V * 2 ^ e)%Q.
Proof.
  intros [[He ->] | [He ->]].
  - rewrite (pow2Q_split e' e) by lia. rewrite inject_Z_mult. ring.
  - rewrite (pow2Q_split e e') by lia. rewrite inject_Z_mult. ring.
Qed.

Lemma rounded_exact (lo ez : Z) (r : float) (X : Q) :
  normal lo 104 r -> (to_Q r == X)%Q -> rounded lo ez r X.
Proof.
  intros Hn HX. constructor; try assumption.
  - intros b _ Hb. rewrite HX. assumption.
  - intros b _ Hb. rewrite HX. assumption.
  - rewrite HX. setoid_replace (X - X)%Q with 0%Q by ring.
    simpl Qabs. rewrite Qmult_0_l. apply Qabs_nonneg.
Qed.

Lemma rounded_units (lo e : Z) (r : float) (M V : Z) :
  normal lo 104 r -> rounds_to M V ->
  (to_Q r == inject_Z V * 2 ^ e)%Q ->
  rounded lo e r (inject_Z M * 2 ^ e).
Proof.
  intros Hn [Hl Hu He] HV. constructor; try assumption.
  - intros b (a & j & Ha & Hj & ->) Hb. rewrite HV.
    rewrite (pow2Q_split j e) in * by lia.
    rewrite Qmult_assoc, <- inject_Z_mult in *.
    apply scaled_le. apply scaled_le in Hb.
    apply Hl; try assumption; lia.
  - intros b (a & j & Ha & Hj & ->) Hb. rewrite HV.
    rewrite (pow2Q_split j e) in * by lia.
    rewrite Qmult_assoc, <- inject_Z_mult in *.
    apply scaled_le. apply scaled_le in Hb.
    apply Hu; try assumption; lia.
  - rewrite HV.
    setoid_replace (inject_Z V * 2 ^ e - inject_Z M * 2 ^ e)%Q
      with (inject_Z (V - M) * 2 ^ e)%Q
      by (unfold Z.sub; rewrite inject_Z_plus, inject_Z_opp; ring).
    rewrite !Qabs_Qmult.
    pose proof (pow2Q_pos e) as Hp.
    rewrite (Qabs_pos (2 ^ e)%Q) by (apply Qlt_le_weak; assumption).
    change (Qabs (inject_Z (V - M))) with (inject_Z (Z.abs (V - M))).
    change (Qabs (inject_Z M)) with (inject_Z (Z.abs M)).
    setoid_replace (inject_Z (Z.abs (V - M)) * 2 ^ e * inject_Z (2 ^ 24))%Q
      with (inject_Z (Z.abs (V - M) * 2 ^ 24) * 2 ^ e)%Q
      by (rewrite inject_Z_mult; ring).
    apply scaled_le. assumption.
Qed.

Lemma binary_round_rounded (s : bool) (p : positive) (e : Z) :
  -125 <= e <= 0 -> Zpos p < 2 ^ (127 - e) ->
  rounded (e - 23) e (binary_round prec emax s p e)
    (inject_Z (cond_Zopp s (Zpos p)) * 2 ^ e).
Proof.
  intros He Hp.
  pose proof (digits2_pos_bounds p) as [Dlo Dhi].
  assert (Hd : Zpos (digits2_pos p) - 1 < 127 - e).
  { apply (Z.pow_lt_mono_r_iff 2); lia. }
  destruct (binary_round_spec s p e) as (n & e' & V & Hres & Hdn & He' & Hlo & Hrt & HV & Hunits);
    [lia|].
  rewrite Hres.
  assert (Hval : (inject_Z (Zpos n) * 2 ^ e' == inject_Z V * 2 ^ e)%Q)
    by (apply scaled_eq_units; assumption).
  apply rounded_units with (V := cond_Zopp s V).
  - simpl. split; [assumption|lia].
  - destruct s; simpl cond_Zopp; [apply (rounds_to_opp (Zpos p))|]; assumption.
  - unfold to_Q. destruct s; simpl cond_Zopp.
    + change (Z.neg n) with (- Zpos n). rewrite !inject_Z_opp.
      setoid_replace (- inject_Z (Z.pos n) * 2 ^ e')%Q with (- (inject_Z (Z.pos n) * 2 ^ e'))%Q by ring.
      rewrite Hval. ring.
    + exact Hval.
Qed.

(** [binary_normalize] rounds the signed integer [M], in units of [2^e],
    to 24 bits; the result is zero or normal. *)
Theorem normalize_correct (M e : Z) :
  -125 <= e <= 0 -> Z.abs M < 2 ^ (127 - e) ->
  rounded (e - 23) e (binary_normalize prec emax M e false) (inject_Z M * 2 ^ e).
Proof.
  intros He HM. destruct M as [|p|p]; unfold binary_normalize.
  - apply rounded_exact; [exact I|]. simpl to_Q. ring.
  - apply (binary_round_rounded false p e He). exact HM.
  - apply (binary_round_rounded true p e He). exact HM.
Qed.

(** ** Addition and subtraction *)

Lemma normal_weaken (lo lo' hi hi' : Z) (x : float) :
  lo' <= lo -> hi <= hi' -> normal lo hi x -> normal lo' hi' x.
Proof. destruct x; simpl; intros; try assumption. lia. Qed.

Lemma rounded_weaken (lo lo' ez : Z) (r : float) (X X' : Q) :
  lo' <= lo -> (X == X')%Q -> rounded lo ez r X -> rounded lo' ez r X'.
Proof.
  intros Hlo HX [Hn Hl Hu He]. constructor.
  - apply (normal_weaken lo lo' 104 104); try assumption; lia.
  - intros b Hb H. apply Hl; [assumption|]. rewrite HX. assumption.
  - intros b Hb H. apply Hu; [assumption|]. rewrite HX. assumption.
  - rewrite <- HX. assumption.
Qed.

Lemma cond_Zopp_true (z : Z) : cond_Zopp true z = - z.
Proof. reflexivity. Qed.

Lemma cond_Zopp_false (z : Z) : cond_Zopp false z = z.
Proof. reflexivity. Qed.

Lemma shl_align_fst (m : positive) (e ez : Z) :
  ez <= e -> Zpos (fst (shl_align m e ez)) = Zpos m * 2 ^ (e - ez).
Proof.
  intros H. unfold shl_align.
  destruct (ez - e) as [|d|d] eqn:Hd; try lia; cbn [fst].
  - replace (e - ez) with 0 by lia. simpl. lia.
  - rewrite iter_xO_pow2. f_equal. f_equal. lia.
Qed.

Lemma aligned_value (s : bool) (m : positive) (e ez : Z) :
  ez <= e ->
  (inject_Z (cond_Zopp s (Zpos (fst (shl_align m e ez)))) * 2 ^ ez
   == to_Q (S754_finite s m e))%Q.
Proof.
  intros H. rewrite shl_align_fst by assumption. unfold to_Q.
  rewrite (pow2Q_split e ez) by assumption.
  destruct s; unfold cond_Zopp.
  - rewrite !inject_Z_opp, inject_Z_mult. ring.
  - rewrite inject_Z_mult. ring.
Qed.

Lemma aligned_bound (s : bool) (m : positive) (e ez : Z) :
  Zpos (digits2_pos m) = 24 -> ez <= e -> e <= 0 ->
  Z.abs (cond_Zopp s (Zpos (fst (shl_align m e ez)))) < 2 ^ (24 - ez).
Proof.
  intros Hd H He. rewrite shl_align_fst by assumption.
  pose proof (digits2_pos_bounds m) as [_ Hm]. rewrite Hd in Hm.
  assert (2 ^ (e - ez) <= 2 ^ (- ez)) by (apply Z.pow_le_mono_r; lia).
  pose proof (pow2_pos (e - ez) ltac:(lia)).
  replace (24 - ez) with (24 + - ez) by lia. rewrite Z.pow_add_r by lia.
  destruct s; unfold cond_Zopp; rewrite ?Z.abs_opp, Z.abs_eq by lia; nia.
Qed.

Section AddSub.
Variable lo : Z.
Hypothesis Hlo : -125 <= lo.

Let okf := normal lo 0.

Lemma addsub_finite (sx sy : bool) (mx my : positive) (ex ey : Z) (neg : bool) :
  okf (S754_finite sx mx ex) -> okf (S754_finite sy my ey) ->
  let ez := Z.min ex ey in
  let M := cond_Zopp sx (Zpos (fst (shl_align mx ex ez)))
           + cond_Zopp neg (cond_Zopp sy (Zpos (fst (shl_align my ey ez)))) in
  rounded (lo - 23) ez (binary_normalize prec emax M ez false)
    (to_Q (S754_finite sx mx ex)
     + (if neg then - to_Q (S754_finite sy my ey) else to_Q (S754_finite sy my ey)))%Q.
Proof.
  intros [Hdx Hex] [Hdy Hey] ez M.
  assert (Hzx : ez <= ex) by (subst ez; lia).
  assert (Hzy : ez <= ey) by (subst ez; lia).
  pose proof (aligned_bound sx mx ex ez Hdx Hzx ltac:(lia)) as Bx.
  pose proof (aligned_bound sy my ey ez Hdy Hzy ltac:(lia)) as By.
  assert (HM : Z.abs M < 2 ^ (127 - ez)).
  { assert (2 * 2 ^ (24 - ez) <= 2 ^ (127 - ez)).
    { rewrite <- pow2_succ by lia. apply Z.pow_le_mono_r; lia. }
    subst M. destruct neg; rewrite ?cond_Zopp_true, ?cond_Zopp_false; lia. }
  apply rounded_weaken with (lo := ez - 23) (X := (inject_Z M * 2 ^ ez)%Q);
    [subst ez; lia| |apply normalize_correct; [subst ez; lia|exact HM]].
  subst M. rewrite inject_Z_plus, Qmult_plus_distr_l.
  rewrite aligned_value by assumption.
  destruct neg; rewrite ?cond_Zopp_true, ?cond_Zopp_false.
  - rewrite inject_Z_opp.
    setoid_replace (- inject_Z (cond_Zopp sy (Z.pos (fst (shl_align my ey ez)))) * 2 ^ ez)%Q
      with (- (inject_Z (cond_Zopp sy (Z.pos (fst (shl_align my ey ez)))) * 2 ^ ez))%Q by ring.
    rewrite aligned_value by assumption. reflexivity.
  - rewrite aligned_value by assumption. reflexivity.
Qed.

(** Addition rounds the exact sum, a multiple of the smaller last-bit
    weight of the two operands. *)
Theorem add_correct (x y : float) :
  okf x -> okf y ->
  rounded (lo - 23) (Z.min (expo x) (expo y)) (add x y) (to_Q x + to_Q y).
Proof.
  intros Hx Hy. unfold add.
  destruct x as [sx| | |sx mx ex]; try contradiction;
    destruct y as [sy| | |sy my ey]; try contradiction.
  - apply rounded_exact; [destruct sx, sy; exact I|].
    destruct sx, sy; simpl; ring.
  - apply rounded_exact.
    + apply (normal_weaken lo (lo - 23) 0 104); [lia|lia|exact Hy].
    + simpl SFadd. cbn [to_Q]. ring.
  - apply rounded_exact.
    + apply (normal_weaken lo (lo - 23) 0 104); [lia|lia|exact Hx].
    + simpl SFadd. cbn [to_Q]. ring.
  - exact (addsub_finite sx sy mx my ex ey false Hx Hy).
Qed.

(** Subtraction rounds the exact difference. *)
Theorem sub_correct (x y : float) :
  okf x -> okf y ->
  rounded (lo - 23) (Z.min (expo x) (expo y)) (sub x y) (to_Q x - to_Q y).
Proof.
  intros Hx Hy. unfold sub.
  destruct x as [sx| | |sx mx ex]; try contradiction;
    destruct y as [sy| | |sy my ey]; try contradiction.
  - apply rounded_exact; [destruct sx, sy; exact I|].
    destruct sx, sy; simpl; ring.
  - apply rounded_exact.
    + apply (normal_weaken lo (lo - 23) 0 104); [lia|lia|exact Hy].
    + simpl SFsub. cbn [to_Q].
      destruct sy; cbn [negb]; rewrite ?cond_Zopp_true, ?cond_Zopp_false, ?inject_Z_opp; ring.
  - apply rounded_exact.
    + apply (normal_weaken lo (lo - 23) 0 104); [lia|lia|exact Hx].
    + simpl SFsub. cbn [to_Q]. ring.
  - pose proof (addsub_finite sx sy mx my ex ey true Hx Hy) as H.
    cbv zeta in H. unfold SFsub.
    replace (cond_Zopp sx (Z.pos (fst (shl_align mx ex (Z.min ex ey)))) -
             cond_Zopp sy (Z.pos (fst (shl_align my ey (Z.min ex ey)))))
      with (cond_Zopp sx (Z.pos (fst (shl_align mx ex (Z.min ex ey)))) +
            cond_Zopp true (cond_Zopp sy (Z.pos (fst (shl_align my ey (Z.min ex ey))))))
      by (rewrite cond_Zopp_true; lia).
    exact H.
Qed.
End AddSub.

(** ** Magnitudes, casts and the exact operations *)

(** The magnitude of a normal number fixes its exponent. *)
Lemma to_Q_magnitude (s : bool) (m : positive) (e : Z) :
  Zpos (digits2_pos m) = 24 ->
  (2 ^ (23 + e) <= Qabs (to_Q (S754_finite s m e)) < 2 ^ (24 + e))%Q.
Proof.
  intros Hd. pose proof (digits2_pos_bounds m) as [Hlo Hhi].
  rewrite Hd in Hlo, Hhi. change (24 - 1) with 23 in Hlo.
  unfold to_Q. rewrite Qabs_Qmult.
  pose proof (pow2Q_pos e) as Hp.
  rewrite (Qabs_pos (2 ^ e)%Q) by (apply Qlt_le_weak; assumption).
  change (Qabs (inject_Z (cond_Zopp s (Zpos m))))
    with (inject_Z (Z.abs (cond_Zopp s (Zpos m)))).
  replace (Z.abs (cond_Zopp s (Zpos m))) with (Zpos m) by (destruct s; reflexivity).
  rewrite !pow2Q_add. rewrite <- (pow2Q_Z 23), <- (pow2Q_Z 24) by lia.
  split.
  - apply Qmult_le_r; [assumption|]. rewrite <- Zle_Qle. assumption.
  - apply Qmult_lt_r; [assumption|]. rewrite <- Zlt_Qlt. assumption.
Qed.

Lemma expo_upper (lo hi : Z) (x : float) (p : Z) :
  normal lo hi x -> (Qabs (to_Q x) < 2 ^ p)%Q -> expo x <= Z.max 0 (p - 24).
Proof.
  destruct x as [s| | |s m e]; simpl normal; try contradiction.
  - intros _ _. simpl. lia.
  - intros [Hd _] H. simpl expo.
    destruct (Z_le_gt_dec e (p - 24)) as [|C]; [lia|exfalso].
    pose proof (to_Q_magnitude s m e Hd) as [Hm _].
    pose proof (pow2Q_le p (23 + e) ltac:(lia)). lra.
Qed.

Lemma normal_of_range (lo hi : Z) (x : float) (p p' : Z) :
  normal lo hi x -> (2 ^ p <= Qabs (to_Q x))%Q -> (Qabs (to_Q x) < 2 ^ p')%Q ->
  normal (p - 23) (p' - 24) x.
Proof.
  destruct x as [s| | |s m e]; simpl normal; try contradiction.
  - intros _ _ _. exact I.
  - intros [Hd _] Hlow Hup. split; [assumption|].
    pose proof (to_Q_magnitude s m e Hd) as [Hm1 Hm2].
    split.
    + destruct (Z_le_gt_dec (p - 23) e) as [|C]; [assumption|exfalso].
      pose proof (pow2Q_le (24 + e) p ltac:(lia)). lra.
    + destruct (Z_le_gt_dec e (p' - 24)) as [|C]; [assumption|exfalso].
      pose proof (pow2Q_le p' (23 + e) ltac:(lia)). lra.
Qed.

Lemma to_Q_sign (s : bool) (m : positive) (e : Z) :
  (0 <= to_Q (S754_finite s m e))%Q -> s = false.
Proof.
  destruct s; [|reflexivity]. intros H. exfalso.
  unfold to_Q in H. rewrite cond_Zopp_true, inject_Z_opp in H.
  pose proof (pow2Q_pos e) as Hp.
  assert (0 < inject_Z (Zpos m) * 2 ^ e)%Q.
  { apply Qmult_lt_0_compat; [|assumption]. rewrite <- (Zlt_Qlt 0). lia. }
  lra.
Qed.

(** The cast to [long] of a non-negative float is the floor of its value. *)
Lemma to_long_floor (lo : Z) (x : float) :
  normal lo 0 x -> (0 <= to_Q x)%Q ->
  (inject_Z (to_long x) <= to_Q x < inject_Z (to_long x) + 1)%Q.
Proof.
  destruct x as [s| | |s m e]; simpl normal; try contradiction.
  - intros _ _. simpl. change (inject_Z 0) with 0%Q. lra.
  - intros [Hd He] Hpos. apply to_Q_sign in Hpos. subst s.
    unfold to_long, to_Q. rewrite !cond_Zopp_false.
    destruct e as [|p|p]; try lia.
    + change (2 ^ 0)%Q with 1%Q. lra.
    + pose proof (pow2_pos (Zpos p) ltac:(lia)) as HP.
      pose proof (Z.div_mod (Zpos m) (2 ^ Zpos p) ltac:(lia)) as Hdm.
      pose proof (Z.mod_pos_bound (Zpos m) (2 ^ Zpos p) HP) as Hr.
      set (q := Zpos m / 2 ^ Zpos p) in *.
      assert (Hq : (inject_Z q == inject_Z (q * 2 ^ Zpos p) * 2 ^ (Zneg p))%Q).
      { rewrite inject_Z_mult, pow2Q_Z by lia.
        rewrite <- Qmult_assoc, <- pow2Q_add.
        replace (Zpos p + Zneg p) with 0 by lia. change (2 ^ 0)%Q with 1%Q. ring. }
      assert (Hq1 : (inject_Z q + 1 == inject_Z ((q + 1) * 2 ^ Zpos p) * 2 ^ (Zneg p))%Q).
      { rewrite inject_Z_mult, pow2Q_Z by lia.
        rewrite <- Qmult_assoc, <- pow2Q_add.
        replace (Zpos p + Zneg p) with 0 by lia. change (2 ^ 0)%Q with 1%Q.
        rewrite inject_Z_plus. ring. }
      rewrite Hq1, Hq. split.
      * apply scaled_le. lia.
      * apply Qmult_lt_r; [apply pow2Q_pos|]. rewrite <- Zlt_Qlt. lia.
Qed.

(** Multiplying by 0.25 only lowers the exponent: the product is exact. *)
Lemma mul_quarter_finite (s : bool) (m : positive) (e : Z) :
  Zpos (digits2_pos m) = 24 -> -147 <= e <= 0 ->
  SFmul prec emax quarter (S754_finite s m e) = S754_finite s m (e - 2).
Proof.
  intros Hd He. unfold quarter, SFmul. cbn [xorb].
  pose proof (digits2_pos_bounds m) as [Hlo Hhi].
  rewrite Hd in Hlo, Hhi. change (24 - 1) with 23 in Hlo.
  assert (HM : Zpos (8388608 * m) = 2 ^ 23 * Zpos m) by reflexivity.
  assert (Hdm : Zpos (digits2_pos (8388608 * m)) = 23 + 24).
  { apply digits2_pos_unique. rewrite HM.
    change (2 ^ (23 + 24 - 1)) with (2 ^ 23 * 2 ^ 23).
    change (2 ^ (23 + 24)) with (2 ^ 23 * 2 ^ 24). lia. }
  destruct (binary_round_aux_shift s (8388608 * m) (-25 + e) 23)
    as (n & e' & Hres & Hdn & He' & (c & Hc & HV) & Herr); try lia.
  rewrite Hres. rewrite HM, HV in Herr.
  assert (c = Zpos m) by lia. subst c.
  pose proof (digits2_pos_bounds n) as [Nlo Nhi].
  rewrite Hdn in Nlo, Nhi. change (24 - 1) with 23 in Nlo.
  destruct He' as [-> | ->].
  - replace (-25 + e + 23 - (-25 + e)) with 23 in HV by lia.
    assert (Zpos n = Zpos m) by lia.
    f_equal; [congruence|lia].
  - exfalso. replace (-25 + e + 23 + 1 - (-25 + e)) with 24 in HV by lia.
    change (2 ^ 24) with (2 * 2 ^ 23) in HV. lia.
Qed.

Lemma mul_quarter_correct (lo : Z) (x : float) :
  -145 <= lo -> normal lo 0 x ->
  normal (lo - 2) 0 (mul quarter x) /\
  (to_Q (mul quarter x) == (1 # 4) * to_Q x)%Q.
Proof.
  intros Hlo Hx. unfold mul. destruct x as [s| | |s m e]; simpl normal in Hx; try contradiction.
  - simpl. split; [exact I|ring].
  - destruct Hx as [Hd He]. rewrite mul_quarter_finite by (assumption || lia).
    split; [simpl; split; [assumption|lia]|].
    unfold to_Q. replace (e - 2) with (e + -2) by lia.
    rewrite pow2Q_add. change (2 ^ (-2))%Q with (/ 4)%Q.
    field.
Qed.

Lemma rep_float (lo hi ez : Z) (x : float) :
  normal lo hi x -> ez <= expo x -> rep ez (to_Q x).
Proof.
  destruct x as [s| | |s m e]; simpl normal; try contradiction.
  - intros _ He. simpl in He. exists 0, 0. split; [simpl; lia|].
    split; [assumption|]. simpl to_Q. change (inject_Z 0) with 0%Q. ring.
  - intros [Hd _] He. simpl in He.
    pose proof (digits2_pos_bounds m) as [_ Hm]. rewrite Hd in Hm.
    exists (cond_Zopp s (Zpos m)), e.
    split; [destruct s; simpl; lia|]. split; [assumption|reflexivity].
Qed.

Lemma rep_Z (ez n : Z) : ez <= 0 -> Z.abs n < 2 ^ 24 -> rep ez (inject_Z n).
Proof.
  intros He Hn. exists n, 0. split; [assumption|]. split; [assumption|].
  change (2 ^ 0)%Q with 1%Q. ring.
Qed.

(** An integer below [2^24] converts exactly. *)
Lemma of_Z_correct (n : Z) :
  Z.abs n < 2 ^ 24 ->
  normal (-23) 0 (of_Z n) /\ (to_Q (of_Z n) == inject_Z n)%Q.
Proof.
  intros Hn. unfold of_Z.
  destruct (normalize_correct n 0 ltac:(lia)) as [Hnorm Hl Hu _].
  { change (2 ^ (127 - 0)) with (2 ^ 24 * 2 ^ 103). lia. }
  assert (HX : (inject_Z n * 2 ^ 0 == inject_Z n)%Q) by (change (2 ^ 0)%Q with 1%Q; ring).
  assert (Hv : (to_Q (binary_normalize prec emax n 0 false) == inject_Z n)%Q).
  { apply Qle_antisym.
    - apply Hu; [apply rep_Z; lia|]. rewrite HX. apply Qle_refl.
    - apply Hl; [apply rep_Z; lia|]. rewrite HX. apply Qle_refl. }
  split; [|exact Hv].
  destruct (binary_normalize prec emax n 0 false) as [s| | |s m e] eqn:E;
    simpl normal in *; try contradiction; try exact I.
  destruct Hnorm as [Hd He]. split; [assumption|]. split; [lia|].
  assert (Hup : expo (S754_finite s m e) <= Z.max 0 (24 - 24)).
  { apply (expo_upper (-23) 104); [simpl; split; [assumption|lia]|].
    rewrite Hv. change (Qabs (inject_Z n)) with (inject_Z (Z.abs n)).
    rewrite <- (pow2Q_Z 24) by lia. rewrite <- Zlt_Qlt. assumption. }
  simpl in Hup. lia.
Qed.

End F32Facts.

(** * The stabilizer step *)

Import F32 F32Facts.

Lemma half_eq : half = S754_finite false 8388608 (-24).
Proof. vm_compute. reflexivity. Qed.

Lemma alpha_eq : DIST_EMA_ALPHA = quarter.
Proof. vm_compute. reflexivity. Qed.

(** The literal [0.343f] is the binary32 number [0x3EAF9DB2]. *)
Lemma sound_speed_eq : SOUND_SPEED_MM_PER_US = S754_finite false 11509170 (-25).
Proof. vm_compute. reflexivity. Qed.

Lemma half_correct : normal (-24) 0 half /\ (to_Q half == 1 # 2)%Q /\ expo half = -24.
Proof.
  rewrite half_eq. split; [|split]; [|reflexivity|reflexivity].
  simpl. split; [reflexivity|lia].
Qed.

(** ** Rounding to millimetres *)

Section RoundMm.
Variable x : float.
Hypothesis Hx : normal (-24) 0 x.
Hypothesis Hpos : (0 <= to_Q x)%Q.
Hypothesis Hmax : (to_Q x <= 4096)%Q.

Let r := add x half.
Let X := (to_Q x + (1 # 2))%Q.

Lemma round_mm_rounded : rounded (-47) (-24) r X.
Proof.
  destruct half_correct as (Hh & Hv & He).
  pose proof (add_correct (-24) ltac:(lia) x half Hx Hh) as H.
  rewrite He in H. subst r X.
  destruct H as [Hn Hl Hu Herr]. constructor.
  - exact Hn.
  - intros b (a & j & Ha & Hj & Hb) Hle. apply Hl.
    + exists a, j. split; [assumption|]. split; [lia|assumption].
    + rewrite Hv. assumption.
  - intros b (a & j & Ha & Hj & Hb) Hle. apply Hu.
    + exists a, j. split; [assumption|]. split; [lia|assumption].
    + rewrite Hv. assumption.
  - rewrite Hv in Herr. exact Herr.
Qed.

Lemma round_mm_sum_bounds : (0 <= to_Q r <= 4097)%Q /\ normal (-47) 0 r.
Proof.
  destruct round_mm_rounded as [Hn Hl Hu _].
  assert (H0 : (0 <= to_Q r)%Q).
  { apply (Hl (inject_Z 0)); [apply rep_Z; simpl; lia|].
    subst X. change (inject_Z 0) with 0%Q. lra. }
  assert (H1 : (to_Q r <= 4097)%Q).
  { apply (Hu (inject_Z 4097)); [apply rep_Z; simpl; lia|].
    subst X. change (inject_Z 4097) with 4097%Q. lra. }
  split; [split; assumption|].
  destruct r as [s| | |s m e] eqn:E; simpl normal in *; try contradiction; try exact I.
  destruct Hn as [Hd He]. split; [assumption|]. split; [lia|].
  pose proof (to_Q_magnitude s m e Hd) as [Hm _].
  rewrite Qabs_pos in Hm by assumption.
  destruct (Z_le_gt_dec e 0) as [|C]; [assumption|exfalso].
  pose proof (pow2Q_le 24 (23 + e) ltac:(lia)) as Hp.
  change (2 ^ 24)%Q with 16777216%Q in Hp. lra.
Qed.

Lemma round_mm_floor :
  (inject_Z (round_mm x) <= to_Q r < inject_Z (round_mm x) + 1)%Q.
Proof.
  destruct round_mm_sum_bounds as [[H0 _] Hn].
  unfold round_mm. fold r. apply (to_long_floor (-47)); assumption.
Qed.

Lemma round_mm_nonneg : 0 <= round_mm x.
Proof.
  destruct round_mm_floor as [_ H]. destruct round_mm_sum_bounds as [[H0 _] _].
  assert (Hlt : (inject_Z (-1) < inject_Z (round_mm x))%Q).
  { change (inject_Z (-1)) with (-1)%Q. lra. }
  rewrite <- Zlt_Qlt in Hlt. lia.
Qed.

(** No integer lies strictly between the exact sum and its rounding. *)
Lemma round_mm_lower (n : Z) : (inject_Z n <= X)%Q -> n <= round_mm x.
Proof.
  intros Hn. pose proof round_mm_nonneg as H0.
  destruct (Z_le_gt_dec n 0) as [|Hn0]; [lia|].
  assert (Hn1 : n <= 4097).
  { rewrite Zle_Qle. change (inject_Z 4097) with 4097%Q. subst X. lra. }
  destruct round_mm_rounded as [_ Hl _ _]. destruct round_mm_floor as [_ Hf].
  assert (Hr : (inject_Z n <= to_Q r)%Q).
  { apply Hl; [apply rep_Z; simpl; lia|assumption]. }
  assert (Hlt : (inject_Z n < inject_Z (round_mm x + 1))%Q).
  { rewrite inject_Z_plus. change (inject_Z 1) with 1%Q. lra. }
  rewrite <- Zlt_Qlt in Hlt. lia.
Qed.

Lemma round_mm_upper (n : Z) : (X <= inject_Z n)%Q -> round_mm x <= n.
Proof.
  intros Hn. destruct round_mm_floor as [Hf _].
  destruct round_mm_sum_bounds as [[_ H1] _].
  destruct (Z_le_gt_dec 4097 n) as [Hbig|Hsmall].
  { assert (Hle : (inject_Z (round_mm x) <= inject_Z n)%Q).
    { rewrite Zle_Qle in Hbig. change (inject_Z 4097) with 4097%Q in Hbig. lra. }
    rewrite <- Zle_Qle in Hle. exact Hle. }
  assert (Hn0 : 0 <= n).
  { assert (Hlt : (inject_Z (-1) < inject_Z n)%Q)
      by (change (inject_Z (-1)) with (-1)%Q; subst X; lra).
    rewrite <- Zlt_Qlt in Hlt. lia. }
  destruct round_mm_rounded as [_ _ Hu _].
  assert (Hr : (to_Q r <= inject_Z n)%Q).
  { apply Hu; [apply rep_Z; simpl; lia|assumption]. }
  assert (Hle : (inject_Z (round_mm x) <= inject_Z n)%Q) by lra.
  rewrite <- Zle_Qle in Hle. exact Hle.
Qed.

Lemma round_mm_le (n : Z) : (to_Q x <= inject_Z n)%Q -> round_mm x <= n.
Proof.
  intros Hn. destruct round_mm_floor as [Hf _].
  destruct round_mm_sum_bounds as [[_ H1] _].
  destruct (Z_le_gt_dec 4097 n) as [Hbig|Hsmall].
  { assert (Hle : (inject_Z (round_mm x) <= inject_Z n)%Q).
    { rewrite Zle_Qle in Hbig. change (inject_Z 4097) with 4097%Q in Hbig. lra. }
    rewrite <- Zle_Qle in Hle. exact Hle. }
  assert (Hn0 : 0 <= n).
  { rewrite Zle_Qle. change (inject_Z 0) with 0%Q. lra. }
  destruct round_mm_rounded as [_ _ Hu _].
  assert (Hr : (to_Q r <= inject_Z (2 * n + 1) * 2 ^ (-1))%Q).
  { apply Hu.
    - exists (2 * n + 1), (-1). split; [lia|]. split; [lia|reflexivity].
    - subst X. rewrite inject_Z_plus, inject_Z_mult.
      change (2 ^ (-1))%Q with (1 # 2)%Q.
      change (inject_Z 2) with 2%Q. change (inject_Z 1) with 1%Q. lra. }
  rewrite inject_Z_plus, inject_Z_mult in Hr.
  change (2 ^ (-1))%Q with (1 # 2)%Q in Hr.
  change (inject_Z 2) with 2%Q in Hr. change (inject_Z 1) with 1%Q in Hr.
  assert (Hlt : (inject_Z (round_mm x) < inject_Z (n + 1))%Q).
  { rewrite inject_Z_plus. change (inject_Z 1) with 1%Q. lra. }
  rewrite <- Zlt_Qlt in Hlt. lia.
Qed.

Lemma round_mm_ge (n : Z) : (inject_Z n <= to_Q x)%Q -> n <= round_mm x.
Proof. intros Hn. apply round_mm_lower. subst X. lra. Qed.

(** The rounded value is within half a millimetre of the float, up to
    the rounding of the sum. *)
Lemma round_mm_near :
  (to_Q x - (1 # 2) < inject_Z (round_mm x) <= to_Q x + (1 # 2) + (1 # 2048))%Q.
Proof.
  split.
  - pose proof (round_mm_lower (Qfloor X) (Qfloor_le X)) as H.
    pose proof (Qlt_floor X) as Hlt.
    rewrite Zle_Qle in H. rewrite inject_Z_plus in Hlt.
    change (inject_Z 1) with 1%Q in Hlt. subst X. lra.
  - destruct round_mm_floor as [Hf _].
    destruct round_mm_rounded as [_ _ _ Herr].
    assert (HX : (0 <= X)%Q) by (subst X; lra).
    rewrite (Qabs_pos X) in Herr by assumption.
    change (inject_Z (2 ^ 24)) with 16777216%Q in Herr.
    pose proof (Qle_Qabs (to_Q r - X)) as Habs.
    subst X. lra.
Qed.
End RoundMm.

(** ** Exponential smoothing *)

Lemma Qabs_bounds (a : Q) : (- Qabs a <= a <= Qabs a)%Q.
Proof.
  split; [|apply Qle_Qabs].
  pose proof (Qle_Qabs (- a)) as H. rewrite Qabs_opp in H. lra.
Qed.

Lemma Qabs_le_of_bounds (a b : Q) : (- b <= a <= b)%Q -> (Qabs a <= b)%Q.
Proof. intros. apply Qabs_Qle_condition. assumption. Qed.

Lemma rounded_error_bound (lo ez : Z) (r : float) (X B : Q) :
  rounded lo ez r X -> (Qabs X <= B)%Q ->
  (X - B * (1 # 16777216) <= to_Q r <= X + B * (1 # 16777216))%Q.
Proof.
  intros [_ _ _ Herr] HB.
  change (inject_Z (2 ^ 24)) with 16777216%Q in Herr.
  pose proof (Qabs_bounds (to_Q r - X)). lra.
Qed.

Lemma normal_cap (lo hi : Z) (r : float) :
  normal lo hi r -> (Qabs (to_Q r) < 2 ^ 24)%Q -> normal lo 0 r.
Proof.
  destruct r as [s| | |s m e]; simpl normal; try contradiction; try (intros; exact I).
  intros [Hd He] Hb. split; [assumption|]. split; [lia|].
  pose proof (to_Q_magnitude s m e Hd) as [Hm _].
  destruct (Z_le_gt_dec e 0) as [|C]; [assumption|exfalso].
  pose proof (pow2Q_le 24 (23 + e) ltac:(lia)). lra.
Qed.

Lemma in_range_normal (lo hi : Z) (x : float) :
  normal lo hi x -> in_range x -> normal (-18) (-13) x.
Proof.
  intros Hn [H1 H2].
  change (inject_Z DIST_MIN_MM) with 50%Q in H1.
  change (inject_Z DIST_MAX_MM) with 2000%Q in H2.
  change (-18) with (5 - 23). change (-13) with (11 - 24).
  apply (normal_of_range lo hi); [assumption| |].
  - rewrite Qabs_pos by lra. change (2 ^ 5)%Q with 32%Q. lra.
  - rewrite Qabs_pos by lra. change (2 ^ 11)%Q with 2048%Q. lra.
Qed.

Lemma of_Z_in_range (t : Z) :
  DIST_MIN_MM <= t <= DIST_MAX_MM ->
  normal (-18) (-13) (of_Z t) /\ (to_Q (of_Z t) == inject_Z t)%Q.
Proof.
  unfold DIST_MIN_MM, DIST_MAX_MM. intros Ht.
  destruct (of_Z_correct t) as [Hn Hv]; [simpl; lia|].
  split; [|exact Hv].
  apply (in_range_normal (-23) 0); [assumption|].
  unfold in_range. rewrite Hv. rewrite <- !Zle_Qle.
  unfold DIST_MIN_MM, DIST_MAX_MM. lia.
Qed.

Section Ema.
Variable x : float.
Variable t : Z.
Hypothesis Hx : normal (-18) (-13) x.
Hypothesis Hr : in_range x.
Hypothesis Ht : DIST_MIN_MM <= t <= DIST_MAX_MM.

Let T := inject_Z t.
Let d := sub (of_Z t) x.
Let q := mul DIST_EMA_ALPHA d.

Lemma ema_T_range : (50 <= T <= 2000)%Q.
Proof.
  subst T. change 50%Q with (inject_Z DIST_MIN_MM).
  change 2000%Q with (inject_Z DIST_MAX_MM).
  rewrite <- !Zle_Qle. exact Ht.
Qed.

Lemma ema_x_range : (50 <= to_Q x <= 2000)%Q.
Proof. exact Hr. Qed.

Lemma ema_diff : rounded (-41) (Z.min (expo (of_Z t)) (expo x)) d (T - to_Q x).
Proof.
  destruct (of_Z_in_range t Ht) as [Hn Hv].
  pose proof (sub_correct (-18) ltac:(lia) (of_Z t) x) as H.
  change (-18 - 23) with (-41) in H.
  apply (rounded_weaken (-41) (-41) _ _ (to_Q (of_Z t) - to_Q x)); [lia| |].
  - rewrite Hv. reflexivity.
  - apply H; apply (normal_weaken (-18) (-18) (-13) 0); (lia || assumption).
Qed.

Lemma ema_diff_bounds :
  normal (-41) 0 d /\
  (T - to_Q x - (1 # 8192) <= to_Q d <= T - to_Q x + (1 # 8192))%Q /\
  ((to_Q x <= T)%Q -> (0 <= to_Q d <= 4 * (T - to_Q x))%Q) /\
  ((T <= to_Q x)%Q -> (4 * (T - to_Q x) <= to_Q d <= 0)%Q).
Proof.
  pose proof ema_diff as H. pose proof ema_T_range. pose proof ema_x_range.
  assert (Hez : Z.min (expo (of_Z t)) (expo x) <= 0).
  { destruct x as [s| | |s m e]; simpl in Hx |- *; try contradiction; lia. }
  assert (Hb : (Qabs (T - to_Q x) <= 2048)%Q) by (apply Qabs_le_of_bounds; lra).
  pose proof (rounded_error_bound _ _ _ _ _ H Hb) as Herr.
  assert (Hn : normal (-41) 0 d).
  { apply (normal_cap (-41) 104); [apply H|].
    apply Qle_lt_trans with 2049%Q; [|reflexivity].
    apply Qabs_le_of_bounds. lra. }
  split; [exact Hn|]. split; [lra|].
  destruct H as [_ Hl Hu Her].
  change (inject_Z (2 ^ 24)) with 16777216%Q in Her.
  pose proof (Qabs_bounds (to_Q d - (T - to_Q x))) as Hab.
  split; intros Hc.
  - rewrite (Qabs_pos (T - to_Q x)) in Her by lra. split; [|lra].
    apply (Hl (inject_Z 0)); [apply rep_Z; simpl; lia|].
    change (inject_Z 0) with 0%Q. lra.
  - rewrite (Qabs_neg (T - to_Q x)) in Her by lra. split; [lra|].
    apply (Hu (inject_Z 0)); [apply rep_Z; simpl; lia|].
    change (inject_Z 0) with 0%Q. lra.
Qed.

Lemma ema_incr : normal (-43) 0 q /\ (to_Q q == (1 # 4) * to_Q d)%Q.
Proof.
  destruct ema_diff_bounds as (Hn & _).
  subst q. rewrite alpha_eq.
  pose proof (mul_quarter_correct (-41) d ltac:(lia) Hn) as H.
  exact H.
Qed.

Lemma ema_sum : rounded (-66) (Z.min (expo x) (expo q)) (ema x t) (to_Q x + to_Q q).
Proof.
  destruct ema_incr as [Hq _].
  pose proof (add_correct (-43) ltac:(lia) x q) as H.
  apply H; [|assumption].
  apply (normal_weaken (-18) (-43) (-13) 0); (lia || assumption).
Qed.

Lemma ema_rep_x : rep (Z.min (expo x) (expo q)) (to_Q x).
Proof. apply (rep_float (-18) (-13)); [assumption|lia]. Qed.

Lemma ema_rep_T : rep (Z.min (expo x) (expo q)) T.
Proof.
  apply rep_Z.
  - destruct x as [s| | |s m e]; simpl in Hx |- *; try contradiction; lia.
  - unfold DIST_MIN_MM, DIST_MAX_MM in Ht. simpl. lia.
Qed.

(** The smoothed value moves from [x] toward the target and never past
    it. *)
Lemma ema_between :
  ((to_Q x <= T)%Q -> (to_Q x <= to_Q (ema x t) <= T)%Q) /\
  ((T <= to_Q x)%Q -> (T <= to_Q (ema x t) <= to_Q x)%Q).
Proof.
  destruct ema_diff_bounds as (_ & _ & Hup & Hdown).
  destruct ema_incr as [_ Hq]. destruct ema_sum as [_ Hl Hu _].
  split; intros Hc.
  - specialize (Hup Hc). split.
    + apply Hl; [apply ema_rep_x|]. rewrite Hq. lra.
    + apply Hu; [apply ema_rep_T|]. rewrite Hq. lra.
  - specialize (Hdown Hc). split.
    + apply Hl; [apply ema_rep_T|]. rewrite Hq. lra.
    + apply Hu; [apply ema_rep_x|]. rewrite Hq. lra.
Qed.

Lemma ema_in_range : in_range (ema x t).
Proof.
  pose proof ema_T_range. pose proof ema_x_range.
  destruct ema_between as [Hup Hdown].
  unfold in_range.
  change (inject_Z DIST_MIN_MM) with 50%Q.
  change (inject_Z DIST_MAX_MM) with 2000%Q.
  destruct (Qlt_le_dec T (to_Q x)) as [C|C].
  - specialize (Hdown (Qlt_le_weak _ _ C)). lra.
  - specialize (Hup C). lra.
Qed.

Lemma ema_normal : normal (-18) (-13) (ema x t).
Proof.
  apply (in_range_normal (-66) 104); [apply ema_sum|apply ema_in_range].
Qed.

(** Up to rounding, the new value is [x + 0.25 * (t - x)]. *)
Lemma ema_error :
  (Qabs (to_Q (ema x t) - (to_Q x + (1 # 4) * (T - to_Q x))) <= 1 # 4096)%Q.
Proof.
  pose proof ema_T_range. pose proof ema_x_range.
  destruct ema_diff_bounds as (_ & Hd & Hup & Hdown).
  destruct ema_incr as [_ Hq].
  assert (Hb : (Qabs (to_Q x + to_Q q) <= 2048)%Q).
  { apply Qabs_le_of_bounds. rewrite Hq.
    destruct (Qlt_le_dec T (to_Q x)) as [C|C].
    - specialize (Hdown (Qlt_le_weak _ _ C)). lra.
    - specialize (Hup C). lra. }
  pose proof (rounded_error_bound _ _ _ _ _ ema_sum Hb) as Herr.
  rewrite Hq in Herr.
  apply Qabs_le_of_bounds. lra.
Qed.
End Ema.

(** ** Validity gate and slew limiter *)

Lemma isDistanceValid_spec (mm : Z) :
  isDistanceValid mm = true <-> DIST_MIN_MM <= mm <= DIST_MAX_MM.
Proof.
  unfold isDistanceValid. rewrite andb_true_iff, Z.geb_le, Z.leb_le. lia.
Qed.

Lemma clampStep_spec (current target : Z) :
  let c := clampStep current target MAX_STEP_PER_SAMPLE_MM in
  Z.abs (c - current) <= MAX_STEP_PER_SAMPLE_MM /\
  (current <= target -> current <= c <= target) /\
  (target <= current -> target <= c <= current) /\
  (Z.abs (target - current) <= MAX_STEP_PER_SAMPLE_MM -> c = target).
Proof.
  unfold clampStep, MAX_STEP_PER_SAMPLE_MM. cbv zeta.
  destruct (target - current >? 80) eqn:Hgt; rewrite Z.gtb_ltb in Hgt;
    [apply Z.ltb_lt in Hgt; lia|apply Z.ltb_ge in Hgt].
  destruct (target - current <? - (80)) eqn:Hlt;
    [apply Z.ltb_lt in Hlt|apply Z.ltb_ge in Hlt]; lia.
Qed.

(** ** One pass of the filter *)

Lemma state_ok_round_mm (st : filter_state) :
  state_ok st -> hasValidDistance st = true ->
  DIST_MIN_MM <= round_mm (distFiltered st) <= DIST_MAX_MM.
Proof.
  intros Hok Hv. destruct (Hok Hv) as (Hn & [H1 H2] & _).
  assert (Hn' : normal (-24) 0 (distFiltered st))
    by (apply (normal_weaken (-18) (-24) (-13) 0); (lia || assumption)).
  change (inject_Z DIST_MIN_MM) with 50%Q in H1.
  change (inject_Z DIST_MAX_MM) with 2000%Q in H2.
  split.
  - apply round_mm_ge; try assumption; try lra.
  - apply round_mm_le; try assumption; try lra.
Qed.

(** The [long] values of one pass stay far inside the 32-bit range. *)
Lemma filter_longs_in_range (st : filter_state) :
  state_ok st -> hasValidDistance st = true ->
  let c := round_mm (distFiltered st) in
  long_range c /\ long_range (lastGoodMm st - c) /\
  long_range (c + MAX_STEP_PER_SAMPLE_MM) /\ long_range (c - MAX_STEP_PER_SAMPLE_MM).
Proof.
  intros Hok Hv. pose proof (state_ok_round_mm st Hok Hv) as Hc.
  destruct (Hok Hv) as (_ & _ & Hl).
  unfold long_range, DIST_MIN_MM, DIST_MAX_MM, MAX_STEP_PER_SAMPLE_MM in *.
  cbv zeta. lia.
Qed.

Lemma accept_ok (st : filter_state) (rawMm : Z) :
  state_ok st -> state_ok (accept st rawMm).
Proof.
  intros Hok. unfold accept.
  destruct (isDistanceValid rawMm) eqn:Hv; [|assumption].
  apply isDistanceValid_spec in Hv.
  destruct (hasValidDistance st) eqn:Hs; cbn [negb]; intros _; cbn [distFiltered lastGoodMm].
  - destruct (Hok Hs) as (Hn & Hr & _). auto.
  - destruct (of_Z_in_range rawMm Hv) as [Hn Hq].
    split; [assumption|]. split; [|assumption].
    unfold in_range. rewrite Hq, <- !Zle_Qle. assumption.
Qed.

Lemma target_range (st : filter_state) :
  state_ok st -> hasValidDistance st = true ->
  DIST_MIN_MM <= target_mm st <= DIST_MAX_MM /\
  target_mm st =
    clampStep (round_mm (distFiltered st)) (lastGoodMm st) MAX_STEP_PER_SAMPLE_MM.
Proof.
  intros Hok Hv. pose proof (state_ok_round_mm st Hok Hv) as Hc.
  destruct (Hok Hv) as (_ & _ & Hl).
  unfold target_mm. rewrite Hv. cbn [ENABLE_SLEW_LIMIT andb].
  split; [|reflexivity].
  destruct (clampStep_spec (round_mm (distFiltered st)) (lastGoodMm st)) as (_ & Hup & Hdown & _).
  destruct (Z_le_gt_dec (round_mm (distFiltered st)) (lastGoodMm st)) as [C|C].
  - specialize (Hup C). lia.
  - specialize (Hdown ltac:(lia)). lia.
Qed.

Lemma smooth_ok (st : filter_state) (t : Z) :
  state_ok st -> (hasValidDistance st = true -> DIST_MIN_MM <= t <= DIST_MAX_MM) ->
  state_ok (smooth st t).
Proof.
  intros Hok Ht. unfold smooth.
  destruct (hasValidDistance st) eqn:Hv; [|assumption].
  destruct (Hok Hv) as (Hn & Hr & Hl). specialize (Ht eq_refl).
  intros _. cbn [distFiltered lastGoodMm].
  split; [apply ema_normal; assumption|].
  split; [apply ema_in_range; assumption|assumption].
Qed.

Lemma step_eq (st : filter_state) (raw : RawRange) :
  step st raw = smooth (accept st (raw_long raw)) (target_mm (accept st (raw_long raw))).
Proof. reflexivity. Qed.

Lemma update_eq (st : filter_state) (raw : RawRange) :
  update raw st = (out_mm (step st raw), step st raw).
Proof. reflexivity. Qed.

Lemma step_ok (st : filter_state) (raw : RawRange) :
  state_ok st -> state_ok (step st raw).
Proof.
  intros Hok. rewrite step_eq.
  pose proof (accept_ok st (raw_long raw) Hok) as Ha.
  apply smooth_ok; [assumption|].
  intros Hv. apply target_range; assumption.
Qed.

Lemma initial_ok : state_ok initial_state.
Proof. intros H. discriminate. Qed.

Lemma final_state_ok (inputs : list RawRange) (st : filter_state) :
  state_ok st -> state_ok (final_state st inputs).
Proof.
  revert st. induction inputs as [|r rest IH]; intros st Hok; [assumption|].
  apply IH. apply step_ok. assumption.
Qed.

Lemma final_state_app (st : filter_state) (l1 l2 : list RawRange) :
  final_state st (l1 ++ l2) = final_state (final_state st l1) l2.
Proof. unfold final_state. apply fold_left_app. Qed.

(** The initialization flag is never cleared. *)
Lemma accept_keeps_valid (st : filter_state) (rawMm : Z) :
  hasValidDistance st = true -> hasValidDistance (accept st rawMm) = true.
Proof.
  intros Hv. unfold accept. destruct (isDistanceValid rawMm); [|assumption].
  rewrite Hv. reflexivity.
Qed.

Lemma smooth_hasValid (st : filter_state) (t : Z) :
  hasValidDistance (smooth st t) = hasValidDistance st.
Proof. unfold smooth. destruct (hasValidDistance st) eqn:E; [reflexivity|assumption]. Qed.

Lemma smooth_lastGood (st : filter_state) (t : Z) :
  lastGoodMm (smooth st t) = lastGoodMm st.
Proof. unfold smooth. destruct (hasValidDistance st); reflexivity. Qed.

Lemma step_keeps_valid (st : filter_state) (raw : RawRange) :
  hasValidDistance st = true -> hasValidDistance (step st raw) = true.
Proof.
  intros Hv. rewrite step_eq, smooth_hasValid. apply accept_keeps_valid. assumption.
Qed.

Lemma final_state_keeps_valid (inputs : list RawRange) (st : filter_state) :
  hasValidDistance st = true -> hasValidDistance (final_state st inputs) = true.
Proof.
  revert st. induction inputs as [|r rest IH]; intros st Hv; [assumption|].
  apply IH. apply step_keeps_valid. assumption.
Qed.

Lemma accept_distFiltered (st : filter_state) (rawMm : Z) :
  hasValidDistance st = true -> distFiltered (accept st rawMm) = distFiltered st.
Proof.
  intros Hv. unfold accept. destruct (isDistanceValid rawMm); [|reflexivity].
  rewrite Hv. reflexivity.
Qed.

Lemma accept_rejected (st : filter_state) (rawMm : Z) :
  isDistanceValid rawMm = false -> accept st rawMm = st.
Proof. intros H. unfold accept. rewrite H. reflexivity. Qed.

Lemma accept_lastGood (st : filter_state) (rawMm : Z) :
  isDistanceValid rawMm = true -> lastGoodMm (accept st rawMm) = rawMm.
Proof.
  intros H. unfold accept. rewrite H.
  destruct (negb (hasValidDistance st)); reflexivity.
Qed.

Lemma step_distFiltered (st : filter_state) (raw : RawRange) :
  hasValidDistance st = true ->
  distFiltered (step st raw) =
    ema (distFiltered st) (target_mm (accept st (raw_long raw))).
Proof.
  intros Hv. rewrite step_eq. unfold smooth.
  rewrite (accept_keeps_valid st (raw_long raw) Hv). cbn [distFiltered].
  rewrite accept_distFiltered by assumption. reflexivity.
Qed.

(** Every property of one tick from a state satisfying [state_ok] holds
    along every run. *)
Lemma trace_inv (P : Z * filter_state -> Prop) :
  (forall st raw, state_ok st -> P (update raw st)) ->
  forall inputs st, state_ok st -> Forall P (trace st inputs).
Proof.
  intros HP inputs. induction inputs as [|r rest IH]; intros st Hok; [constructor|].
  cbn [trace]. constructor; [apply HP; assumption|].
  apply IH. apply step_ok. assumption.
Qed.

Lemma forall_from_spec (f : Z -> bool) (n : nat) :
  forall start, forall_from f start n = true ->
  forall z, start <= z < start + Z.of_nat n -> f z = true.
Proof.
  induction n as [|n IH]; intros start H z Hz; [lia|].
  cbn [forall_from] in H. apply andb_true_iff in H. destruct H as [H0 H1].
  destruct (Z.eq_dec z start) as [->|Hne]; [assumption|].
  apply (IH (start + 1)); [assumption|lia].
Qed.

Lemma inject_Z_le (a b : Z) : a <= b -> (inject_Z a <= inject_Z b)%Q.
Proof. intros. rewrite <- Zle_Qle. assumption. Qed.

Lemma state_ok_normal24 (st : filter_state) :
  state_ok st -> hasValidDistance st = true ->
  normal (-24) 0 (distFiltered st) /\ (50 <= to_Q (distFiltered st) <= 2000)%Q.
Proof.
  intros Hok Hv. destruct (Hok Hv) as (Hn & Hr & _).
  split; [|exact Hr].
  apply (normal_weaken (-18) (-24) (-13) 0); (lia || assumption).
Qed.

Lemma state_round_near (st : filter_state) :
  state_ok st -> hasValidDistance st = true ->
  (to_Q (distFiltered st) - (1 # 2) < inject_Z (round_mm (distFiltered st))
   <= to_Q (distFiltered st) + (1 # 2) + (1 # 2048))%Q.
Proof.
  intros Hok Hv. destruct (state_ok_normal24 st Hok Hv) as [Hn Hr].
  apply round_mm_near; try assumption; lra.
Qed.

(** ** Seeding *)

Lemma sub_self (s : bool) (m : positive) (e : Z) :
  sub (S754_finite s m e) (S754_finite s m e) = S754_zero false.
Proof.
  unfold sub, SFsub. rewrite Z.sub_diag. reflexivity.
Qed.

Lemma ema_of_Z (V : Z) :
  DIST_MIN_MM <= V <= DIST_MAX_MM -> ema (of_Z V) V = of_Z V.
Proof.
  intros HV. destruct (of_Z_in_range V HV) as [Hn Hq].
  unfold ema. destruct (of_Z V) as [s| | |s m e]; simpl normal in Hn; try contradiction.
  - exfalso. simpl to_Q in Hq.
    assert (H : (inject_Z 0 == inject_Z V)%Q) by exact Hq.
    rewrite inject_Z_injective in H. unfold DIST_MIN_MM in HV. lia.
  - rewrite sub_self, alpha_eq. reflexivity.
Qed.

Lemma round_mm_of_Z (V : Z) :
  DIST_MIN_MM <= V <= DIST_MAX_MM -> round_mm (of_Z V) = V.
Proof.
  intros HV. destruct (of_Z_in_range V HV) as [Hn Hq].
  assert (Hn' : normal (-24) 0 (of_Z V))
    by (apply (normal_weaken (-18) (-24) (-13) 0); (lia || assumption)).
  assert (Hr : (50 <= inject_Z V <= 2000)%Q).
  { change 50%Q with (inject_Z DIST_MIN_MM). change 2000%Q with (inject_Z DIST_MAX_MM).
    split; apply inject_Z_le; lia. }
  apply Z.le_antisymm.
  - apply round_mm_le; try assumption; rewrite Hq; lra.
  - apply round_mm_ge; try assumption; rewrite Hq; lra.
Qed.

Lemma clampStep_same (c : Z) : clampStep c c MAX_STEP_PER_SAMPLE_MM = c.
Proof.
  destruct (clampStep_spec c c) as (_ & _ & _ & H). apply H.
  rewrite Z.sub_diag. unfold MAX_STEP_PER_SAMPLE_MM. simpl. lia.
Qed.

(** The first accepted reading: the state it leaves and the value
    printed. *)
Lemma seed_update (st : filter_state) (V : Z) :
  hasValidDistance st = false -> DIST_MIN_MM <= V <= DIST_MAX_MM ->
  accept st V = mkState true V (of_Z V) /\
  target_mm (accept st V) = V /\
  update (Distance V) st = (V, mkState true V (of_Z V)).
Proof.
  intros Hu HV.
  assert (Ha : accept st V = mkState true V (of_Z V)).
  { unfold accept. rewrite (proj2 (isDistanceValid_spec V) HV), Hu. reflexivity. }
  assert (Ht : target_mm (mkState true V (of_Z V)) = V).
  { unfold target_mm. cbn [hasValidDistance lastGoodMm distFiltered ENABLE_SLEW_LIMIT andb].
    rewrite round_mm_of_Z by assumption. apply clampStep_same. }
  split; [exact Ha|]. split; [rewrite Ha; exact Ht|].
  rewrite update_eq, step_eq. cbn [raw_long]. rewrite Ha, Ht.
  unfold smooth, out_mm. cbn [hasValidDistance lastGoodMm distFiltered].
  rewrite ema_of_Z by assumption. rewrite round_mm_of_Z by assumption.
  reflexivity.
Qed.

Lemma outputs_before_seeding (inputs : list RawRange) (st : filter_state) :
  hasValidDistance (final_state st inputs) = false ->
  Forall (fun o => o = 0) (outputs st inputs).
Proof.
  revert st. induction inputs as [|r rest IH]; intros st Hf; [constructor|].
  unfold outputs. cbn [trace map]. constructor.
  - rewrite update_eq. cbn [fst]. unfold out_mm.
    destruct (hasValidDistance (step st r)) eqn:Hv; [|reflexivity].
    exfalso. cbn [final_state fold_left] in Hf.
    pose proof (final_state_keeps_valid rest (step st r) Hv) as Hk.
    unfold final_state in Hk, Hf. cbn [fold_left] in Hf. congruence.
  - apply IH. exact Hf.
Qed.

(** ** The gap recurrence *)

Lemma gap_step_lower1 (g : Q) : (g - 19 <= gap_step g)%Q.
Proof.
  unfold gap_step. cbv zeta.
  destruct (Qle_bool (g - 19) ((3 # 4) * g + (1 # 4096))) eqn:E.
  - apply Qle_bool_iff in E. exact E.
  - apply Qle_refl.
Qed.

Lemma gap_step_lower2 (g : Q) : ((3 # 4) * g + (1 # 4096) <= gap_step g)%Q.
Proof.
  unfold gap_step. cbv zeta.
  destruct (Qle_bool (g - 19) ((3 # 4) * g + (1 # 4096))) eqn:E.
  - apply Qle_refl.
  - apply Qlt_le_weak, Qnot_le_lt. intros C. apply Qle_bool_iff in C. congruence.
Qed.

Lemma gap_step_upper (g b : Q) :
  (g - 19 <= b)%Q -> ((3 # 4) * g + (1 # 4096) <= b)%Q -> (gap_step g <= b)%Q.
Proof.
  intros H1 H2. unfold gap_step. cbv zeta.
  destruct (Qle_bool (g - 19) ((3 # 4) * g + (1 # 4096))); assumption.
Qed.

Lemma gap_step_mono (g g' : Q) : (g <= g')%Q -> (gap_step g <= gap_step g')%Q.
Proof.
  intros H. pose proof (gap_step_lower1 g'). pose proof (gap_step_lower2 g').
  apply gap_step_upper; lra.
Qed.

Lemma gap_bound_mono (n : nat) (g g' : Q) :
  (g <= g')%Q -> (gap_bound n g <= gap_bound n g')%Q.
Proof.
  intros H. induction n as [|n IH]; [assumption|].
  cbn [gap_bound]. rewrite !Qred_correct. apply gap_step_mono. assumption.
Qed.

Lemma gap_bound_120 : (gap_bound 120 1950 <= 1)%Q.
Proof. vm_compute. discriminate. Qed.

Lemma gap_bound_settled (n : nat) : (120 <= n)%nat -> (gap_bound n 1950 <= 1)%Q.
Proof.
  induction 1 as [|n Hle IH]; [apply gap_bound_120|].
  cbn [gap_bound]. rewrite Qred_correct. apply gap_step_upper; lra.
Qed.

(** ** Direction of a tick *)

Lemma clampStep_cases (current target : Z) :
  let c := clampStep current target MAX_STEP_PER_SAMPLE_MM in
  (target - current > MAX_STEP_PER_SAMPLE_MM /\ c = current + MAX_STEP_PER_SAMPLE_MM) \/
  (target - current < - MAX_STEP_PER_SAMPLE_MM /\ c = current - MAX_STEP_PER_SAMPLE_MM) \/
  (Z.abs (target - current) <= MAX_STEP_PER_SAMPLE_MM /\ c = target).
Proof.
  unfold clampStep, MAX_STEP_PER_SAMPLE_MM. cbv zeta.
  destruct (target - current >? 80) eqn:Hgt; rewrite Z.gtb_ltb in Hgt;
    [apply Z.ltb_lt in Hgt; left; lia|apply Z.ltb_ge in Hgt].
  destruct (target - current <? - (80)) eqn:Hlt;
    [apply Z.ltb_lt in Hlt|apply Z.ltb_ge in Hlt]; right; [left|right]; lia.
Qed.

Section Tick.
Variable st : filter_state.
Hypothesis Hok : state_ok st.
Hypothesis Hv : hasValidDistance st = true.

Let x := distFiltered st.
Let c := round_mm x.
Let t := target_mm st.

Lemma tick_facts :
  normal (-18) (-13) x /\ in_range x /\
  DIST_MIN_MM <= t <= DIST_MAX_MM /\
  t = clampStep c (lastGoodMm st) MAX_STEP_PER_SAMPLE_MM /\
  (to_Q x - (1 # 2) < inject_Z c <= to_Q x + (1 # 2) + (1 # 2048))%Q.
Proof.
  destruct (Hok Hv) as (Hn & Hr & _).
  destruct (target_range st Hok Hv) as [Ht1 Ht2].
  repeat split; try assumption; try apply Hr; try apply Ht1;
    apply (state_round_near st Hok Hv).
Qed.

(** The smoothed value moves toward the held reading. *)
Lemma tick_toward : toward (lastGoodMm st) x (ema x t).
Proof.
  destruct tick_facts as (Hn & Hr & Ht & Hc & Hnear).
  destruct (state_ok_normal24 st Hok Hv) as [Hn' Hr'].
  destruct (ema_between x t Hn Hr Ht) as [Hup Hdown].
  destruct (Hok Hv) as (_ & _ & Hl).
  pose proof (clampStep_cases c (lastGoodMm st)) as Hcases.
  pose proof (clampStep_spec c (lastGoodMm st)) as (_ & Hcu & Hcd & _).
  cbv zeta in Hcases. rewrite <- Hc in Hcases, Hcu, Hcd.
  unfold MAX_STEP_PER_SAMPLE_MM in Hcases.
  split; intros Hside.
  - assert (Hcl : c <= lastGoodMm st).
    { apply round_mm_le; try assumption; unfold x in *; lra. }
    specialize (Hcu Hcl).
    assert (HtR : (inject_Z t <= inject_Z (lastGoodMm st))%Q) by (apply inject_Z_le; lia).
    assert (Hxt : (to_Q x <= inject_Z t)%Q).
    { destruct Hcases as [[_ E]|[[E _]|[_ E]]]; try lia.
      - rewrite E, inject_Z_plus. change (inject_Z 80) with 80%Q. lra.
      - rewrite E. assumption. }
    specialize (Hup Hxt). lra.
  - assert (Hcl : lastGoodMm st <= c).
    { apply round_mm_ge; try assumption; unfold x in *; lra. }
    specialize (Hcd Hcl).
    assert (HtR : (inject_Z (lastGoodMm st) <= inject_Z t)%Q) by (apply inject_Z_le; lia).
    assert (Hxt : (inject_Z t <= to_Q x)%Q).
    { destruct Hcases as [[E _]|[[_ E]|[_ E]]]; try lia.
      - rewrite E. unfold Z.sub. rewrite inject_Z_plus.
        change (inject_Z (- (80))) with (-80)%Q. lra.
      - rewrite E. assumption. }
    specialize (Hdown Hxt). lra.
Qed.

(** The printed value changes by at most 21 mm in a tick. *)
Lemma tick_out_change : Z.abs (round_mm (ema x t) - c) <= 21.
Proof.
  destruct tick_facts as (Hn & Hr & Ht & Hc & Hnear).
  pose proof (ema_error x t Hn Hr Ht) as Herr.
  pose proof (Qabs_bounds (to_Q (ema x t) - (to_Q x + (1 # 4) * (inject_Z t - to_Q x)))) as Hab.
  pose proof (ema_normal x t Hn Hr Ht) as Hn'.
  pose proof (ema_in_range x t Hn Hr Ht) as Hr'.
  assert (Hnear' : (to_Q (ema x t) - (1 # 2) < inject_Z (round_mm (ema x t))
                    <= to_Q (ema x t) + (1 # 2) + (1 # 2048))%Q).
  { destruct Hr' as [H1 H2].
    change (inject_Z DIST_MIN_MM) with 50%Q in H1.
    change (inject_Z DIST_MAX_MM) with 2000%Q in H2.
    apply round_mm_near; try lra.
    apply (normal_weaken (-18) (-24) (-13) 0); (lia || assumption). }
  destruct (clampStep_spec c (lastGoodMm st)) as (Hstep & _).
  rewrite <- Hc in Hstep. unfold MAX_STEP_PER_SAMPLE_MM in Hstep.
  assert (H1 : (inject_Z t <= inject_Z c + 80)%Q).
  { change 80%Q with (inject_Z 80). rewrite <- inject_Z_plus. apply inject_Z_le. lia. }
  assert (H2 : (inject_Z c <= inject_Z t + 80)%Q).
  { change 80%Q with (inject_Z 80). rewrite <- inject_Z_plus. apply inject_Z_le. lia. }
  assert (Hlt1 : (inject_Z (round_mm (ema x t)) < inject_Z (c + 22))%Q).
  { rewrite inject_Z_plus. change (inject_Z 22) with 22%Q. lra. }
  assert (Hlt2 : (inject_Z c < inject_Z (round_mm (ema x t) + 22))%Q).
  { rewrite inject_Z_plus. change (inject_Z 22) with 22%Q. lra. }
  rewrite <- Zlt_Qlt in Hlt1, Hlt2. lia.
Qed.

(** The distance to a constant reading [V] after a tick. *)
Lemma tick_gap (V : Z) :
  lastGoodMm st = V ->
  (Qabs (inject_Z V - to_Q (ema x t)) <= gap_step (Qabs (inject_Z V - to_Q x)))%Q.
Proof.
  intros HV.
  destruct tick_facts as (Hn & Hr & Ht & Hc & Hnear).
  pose proof (ema_error x t Hn Hr Ht) as Herr.
  pose proof (Qabs_bounds (to_Q (ema x t) - (to_Q x + (1 # 4) * (inject_Z t - to_Q x)))) as Hab.
  destruct (ema_between x t Hn Hr Ht) as [Hup Hdown].
  pose proof (clampStep_cases c (lastGoodMm st)) as Hcases.
  cbv zeta in Hcases. rewrite <- Hc, HV in Hcases.
  unfold MAX_STEP_PER_SAMPLE_MM in Hcases.
  pose proof (gap_step_lower1 (Qabs (inject_Z V - to_Q x))) as G1.
  pose proof (gap_step_lower2 (Qabs (inject_Z V - to_Q x))) as G2.
  pose proof (Qabs_bounds (inject_Z V - to_Q x)) as Hg.
  destruct Hcases as [[Hgt E]|[[Hlt E]|[_ E]]].
  - (* clamped upward *)
    assert (HT : (inject_Z t == inject_Z c + 80)%Q).
    { rewrite E, inject_Z_plus. reflexivity. }
    assert (HVc : (inject_Z c + 81 <= inject_Z V)%Q).
    { change 81%Q with (inject_Z 81). rewrite <- inject_Z_plus. apply inject_Z_le. lia. }
    specialize (Hup ltac:(lra)).
    apply Qabs_le_of_bounds. lra.
  - (* clamped downward *)
    assert (HT : (inject_Z t == inject_Z c - 80)%Q).
    { rewrite E. unfold Z.sub. rewrite inject_Z_plus. reflexivity. }
    assert (HVc : (inject_Z V + 81 <= inject_Z c)%Q).
    { change 81%Q with (inject_Z 81). rewrite <- inject_Z_plus. apply inject_Z_le. lia. }
    specialize (Hdown ltac:(lra)).
    apply Qabs_le_of_bounds. lra.
  - (* the target is the reading itself *)
    rewrite E in Herr, Hab |- *.
    apply Qabs_le_of_bounds. lra.
Qed.

(** Without clamping the gap shrinks by the factor [1 - 0.25], up to
    rounding. *)
Lemma tick_gap_geometric (V : Z) :
  t = V ->
  (Qabs ((inject_Z V - to_Q (ema x t)) - (3 # 4) * (inject_Z V - to_Q x)) <= 1 # 4096)%Q.
Proof.
  intros E.
  destruct tick_facts as (Hn & Hr & Ht & _).
  pose proof (ema_error x t Hn Hr Ht) as Herr.
  pose proof (Qabs_bounds (to_Q (ema x t) - (to_Q x + (1 # 4) * (inject_Z t - to_Q x)))) as Hab.
  rewrite E in Herr, Hab |- *.
  apply Qabs_le_of_bounds. lra.
Qed.
End Tick.

(** * The specification's properties *)

(** C1. From the initial state, the readings Distance(500), NoEcho,
    Distance(1800) print 500, 500, 520.  After the second tick the held
    reading is still 500; on the third tick the slew-limited target is 580
    and the smoothed value is exactly 520. *)
Theorem end_to_end_example :
  outputs initial_state [Distance 500; NoEcho; Distance 1800] = [500; 500; 520] /\
  lastGoodMm (final_state initial_state [Distance 500; NoEcho]) = 500 /\
  target_mm (accept (final_state initial_state [Distance 500; NoEcho])
                    (raw_long (Distance 1800))) = 580 /\
  distFiltered (final_state initial_state [Distance 500; NoEcho; Distance 1800])
    = F32.of_Z 520 /\
  (F32.to_Q (distFiltered (final_state initial_state [Distance 500; NoEcho; Distance 1800]))
   == 520)%Q.
Proof. repeat split; vm_compute; reflexivity. Qed.

(** C7. Once the filter is initialized it stays initialized: whatever
    readings follow (valid, out of range or NoEcho), the flag is never
    reset. *)
Theorem initialized_is_permanent (before after : list RawRange) :
  hasValidDistance (final_state initial_state before) = true ->
  hasValidDistance (final_state initial_state (before ++ after)) = true /\
  Forall (fun p => hasValidDistance (snd p) = true)
         (trace (final_state initial_state before) after).
Proof.
  intros Hv. split.
  - rewrite final_state_app. apply final_state_keeps_valid. assumption.
  - generalize dependent (final_state initial_state before).
    induction after as [|r rest IH]; intros st Hv; [constructor|].
    cbn [trace]. constructor.
    + rewrite update_eq. cbn [snd]. apply step_keeps_valid. assumption.
    + apply IH. apply step_keeps_valid. assumption.
Qed.

Lemma initialized_is_permanent_witness :
  hasValidDistance (final_state initial_state [Distance 500]) = true /\
  hasValidDistance (final_state initial_state ([Distance 500] ++ [NoEcho; Distance 7])) = true.
Proof.
  split; [reflexivity|].
  apply (initialized_is_permanent [Distance 500] [NoEcho; Distance 7]).
  reflexivity.
Defined.

(** ** Ranging unit *)

Lemma nearest_mm_is_nearest (d : Z) :
  (Qabs (inject_Z (nearest_mm d) - inject_Z d * (343 # 1000) / 2) <= 1 # 2)%Q.
Proof.
  unfold nearest_mm.
  set (y := (inject_Z d * (343 # 1000) / 2)%Q).
  pose proof (Qfloor_le (y + (1 # 2))) as H1.
  pose proof (Qlt_floor (y + (1 # 2))) as H2.
  rewrite inject_Z_plus in H2. change (inject_Z 1) with 1%Q in H2.
  apply Qabs_le_of_bounds. lra.
Qed.

Lemma ranging_exhaustive :
  forall_from (fun d => readUltrasonicMillimetersRaw d =? nearest_mm d)
              1 (Z.to_nat US_ECHO_TIMEOUT_US) = true.
Proof. vm_compute. reflexivity. Qed.

(** The bound on the pulse width matters: far beyond the echo timeout the
    binary32 product is off by one millimetre. *)
Lemma ranging_beyond_timeout :
  readUltrasonicMillimetersRaw 95793 = 16429 /\ nearest_mm 95793 = 16428.
Proof. split; vm_compute; reflexivity. Qed.

Lemma nearest_mm_nonneg (d : Z) : 0 <= d -> 0 <= nearest_mm d.
Proof.
  intros Hd. unfold nearest_mm.
  change 0 with (Qfloor 0). apply Qfloor_resp_le.
  assert (0 <= inject_Z d)%Q by (change 0%Q with (inject_Z 0); apply inject_Z_le; assumption).
  unfold Qdiv. change (/ 2)%Q with (1 # 2)%Q. lra.
Qed.

(** C8. The measurement is NoEcho exactly when the pulse width is 0
    (timeout); for a positive width [d], up to the echo timeout that bounds
    what [pulseIn] reports, it is Distance(m) with [m] the millimetre
    nearest to [d * 0.343 / 2]. *)
Theorem measure_nearest_mm (d : Z) :
  0 <= d <= US_ECHO_TIMEOUT_US ->
  (measure d = NoEcho <-> d = 0) /\
  (readUltrasonicMillimetersRaw d = DIST_INVALID <-> d = 0) /\
  (0 < d ->
   measure d = Distance (nearest_mm d) /\
   readUltrasonicMillimetersRaw d = nearest_mm d /\
   (Qabs (inject_Z (nearest_mm d) - inject_Z d * (343 # 1000) / 2) <= 1 # 2)%Q).
Proof.
  intros Hd.
  assert (Hpos : 0 < d -> readUltrasonicMillimetersRaw d = nearest_mm d).
  { intros H0. apply Z.eqb_eq.
    apply (forall_from_spec _ _ 1 ranging_exhaustive).
    unfold US_ECHO_TIMEOUT_US in *. lia. }
  split; [|split].
  - unfold measure. destruct (Z.eqb_spec d 0) as [E|E]; split; intros H;
      try reflexivity; try assumption; try discriminate; contradiction.
  - split; intros H.
    + destruct (Z.eq_dec d 0) as [|Hne]; [assumption|exfalso].
      rewrite Hpos in H by lia.
      pose proof (nearest_mm_nonneg d ltac:(lia)). unfold DIST_INVALID in H. lia.
    + subst d. reflexivity.
  - intros H0. split; [|split; [apply Hpos; assumption|apply nearest_mm_is_nearest]].
    unfold measure. destruct (Z.eqb_spec d 0) as [E|E]; [lia|].
    rewrite Hpos by assumption. reflexivity.
Qed.

Lemma measure_nearest_mm_witness :
  0 <= 1000 <= US_ECHO_TIMEOUT_US /\ measure 1000 = Distance 172.
Proof.
  split; [unfold US_ECHO_TIMEOUT_US; lia|].
  destruct (measure_nearest_mm 1000) as (_ & _ & H);
    [unfold US_ECHO_TIMEOUT_US; lia|].
  destruct (H ltac:(lia)) as (Hm & _). exact Hm.
Defined.

(** ** Stabilizer output *)

(** C2. Along every run from the initial state each printed value is a
    non-negative integer, never the NoEcho sentinel -1, and it is the
    placeholder 0 on every tick that leaves the filter uninitialized. *)
Theorem no_sentinel_leakage (inputs : list RawRange) :
  Forall (fun p => 0 <= fst p /\ fst p <> DIST_INVALID /\
                   (hasValidDistance (snd p) = false -> fst p = 0))
         (trace initial_state inputs).
Proof.
  apply trace_inv; [|apply initial_ok].
  intros st raw Hok. rewrite update_eq. cbn [fst snd].
  pose proof (step_ok st raw Hok) as Hok'.
  unfold out_mm. destruct (hasValidDistance (step st raw)) eqn:Hv.
  - pose proof (state_ok_round_mm _ Hok' Hv) as Hr.
    unfold DIST_MIN_MM, DIST_MAX_MM, DIST_INVALID in *.
    repeat split; try lia; intros; discriminate.
  - unfold DIST_INVALID. repeat split; try lia.
Qed.

(** C9. Once the filter is initialized, the smoothed value lies in
    [DIST_MIN_MM, DIST_MAX_MM] = [50, 2000] and so does every printed
    value, along every run from the initial state. *)
Theorem smoothed_in_range (inputs : list RawRange) :
  Forall (fun p => hasValidDistance (snd p) = true ->
                   in_range (distFiltered (snd p)) /\
                   DIST_MIN_MM <= fst p <= DIST_MAX_MM)
         (trace initial_state inputs).
Proof.
  apply trace_inv; [|apply initial_ok].
  intros st raw Hok. rewrite update_eq. cbn [fst snd]. intros Hv.
  pose proof (step_ok st raw Hok) as Hok'.
  split; [apply (Hok' Hv)|].
  unfold out_mm. rewrite Hv. apply state_ok_round_mm; assumption.
Qed.

(** C4. With slew limiting enabled, on any two consecutive ticks that are
    both after initialization the printed (rounded smoothed) value changes
    by at most MAX_STEP_PER_SAMPLE_MM = 80. *)
Theorem slew_bound (inputs : list RawRange) (raw : RawRange) :
  hasValidDistance (final_state initial_state inputs) = true ->
  ENABLE_SLEW_LIMIT = true /\
  Z.abs (out_mm (step (final_state initial_state inputs) raw)
         - out_mm (final_state initial_state inputs))
  <= MAX_STEP_PER_SAMPLE_MM.
Proof.
  intros Hv. split; [reflexivity|].
  set (st := final_state initial_state inputs) in *.
  assert (Hok : state_ok st) by (apply final_state_ok, initial_ok).
  pose proof (accept_ok st (raw_long raw) Hok) as Hok1.
  pose proof (accept_keeps_valid st (raw_long raw) Hv) as Hv1.
  pose proof (tick_out_change (accept st (raw_long raw)) Hok1 Hv1) as H.
  rewrite accept_distFiltered in H by assumption.
  unfold out_mm. rewrite Hv, (step_keeps_valid st raw Hv).
  rewrite step_distFiltered by assumption.
  unfold MAX_STEP_PER_SAMPLE_MM. lia.
Qed.

Lemma slew_bound_witness :
  hasValidDistance (final_state initial_state [Distance 500]) = true /\
  Z.abs (out_mm (step (final_state initial_state [Distance 500]) (Distance 1800))
         - out_mm (final_state initial_state [Distance 500]))
  <= MAX_STEP_PER_SAMPLE_MM.
Proof.
  split; [reflexivity|].
  apply (slew_bound [Distance 500] (Distance 1800)). reflexivity.
Defined.

(** C5. The first accepted reading [V], from any uninitialized state,
    seeds the smoothed value with exactly [V], sets the flag, and prints
    [V]; every earlier tick printed the placeholder 0. *)
Theorem initialization_seeding (st0 : filter_state) (earlier : list RawRange) (V : Z) :
  hasValidDistance (final_state st0 earlier) = false ->
  DIST_MIN_MM <= V <= DIST_MAX_MM ->
  Forall (fun o => o = 0) (outputs st0 earlier) /\
  update (Distance V) (final_state st0 earlier) = (V, mkState true V (F32.of_Z V)) /\
  (F32.to_Q (F32.of_Z V) == inject_Z V)%Q.
Proof.
  intros Hu HV. split; [apply outputs_before_seeding; assumption|].
  split; [apply seed_update; assumption|].
  apply of_Z_in_range. assumption.
Qed.

Lemma initialization_seeding_witness :
  hasValidDistance (final_state initial_state [NoEcho; Distance 7]) = false /\
  DIST_MIN_MM <= 500 <= DIST_MAX_MM /\
  update (Distance 500) (final_state initial_state [NoEcho; Distance 7])
    = (500, mkState true 500 (F32.of_Z 500)).
Proof.
  split; [reflexivity|]. split; [unfold DIST_MIN_MM, DIST_MAX_MM; lia|].
  apply (initialization_seeding initial_state [NoEcho; Distance 7] 500);
    [reflexivity|unfold DIST_MIN_MM, DIST_MAX_MM; lia].
Defined.

(** C10. The slew limit does not apply across initialization: the target
    is computed after the smoothed value is seeded, so the printed value
    goes from the placeholder 0 straight to [V]; with slew limiting
    enabled, consecutive printed values can differ by 2000. *)
Theorem initialization_jump (st : filter_state) (V : Z) :
  hasValidDistance st = false ->
  DIST_MIN_MM <= V <= DIST_MAX_MM ->
  ENABLE_SLEW_LIMIT = true /\
  out_mm st = 0 /\
  target_mm (accept st (raw_long (Distance V))) = V /\
  fst (update (Distance V) st) = V /\
  outputs initial_state [NoEcho; Distance DIST_MAX_MM] = [0; 2000].
Proof.
  intros Hu HV. destruct (seed_update st V Hu HV) as (_ & Ht & Hupd).
  split; [reflexivity|]. split; [unfold out_mm; rewrite Hu; reflexivity|].
  split; [exact Ht|]. split; [rewrite Hupd; reflexivity|].
  vm_compute. reflexivity.
Qed.

Lemma initialization_jump_witness :
  hasValidDistance initial_state = false /\
  DIST_MIN_MM <= 2000 <= DIST_MAX_MM /\
  fst (update (Distance 2000) initial_state) = 2000.
Proof.
  split; [reflexivity|]. split; [unfold DIST_MIN_MM, DIST_MAX_MM; lia|].
  apply (initialization_jump initial_state 2000);
    [reflexivity|unfold DIST_MIN_MM, DIST_MAX_MM; lia].
Defined.

(** ** Gating and sample-and-hold *)

Lemma rejected_invalid (raw : RawRange) :
  rejected raw -> isDistanceValid (raw_long raw) = false.
Proof.
  destruct raw as [mm|]; cbn [rejected raw_long]; [|reflexivity].
  intros H. destruct (isDistanceValid mm) eqn:E; [|reflexivity].
  apply isDistanceValid_spec in E. lia.
Qed.

Lemma step_rejected (st : filter_state) (raw : RawRange) :
  rejected raw ->
  lastGoodMm (step st raw) = lastGoodMm st /\
  hasValidDistance (step st raw) = hasValidDistance st.
Proof.
  intros H. rewrite step_eq, smooth_lastGood, smooth_hasValid.
  rewrite accept_rejected by (apply rejected_invalid; assumption).
  split; reflexivity.
Qed.

Lemma hold_NoEcho (n : nat) (st : filter_state) :
  lastGoodMm (final_state st (repeat NoEcho n)) = lastGoodMm st /\
  hasValidDistance (final_state st (repeat NoEcho n)) = hasValidDistance st.
Proof.
  revert st. induction n as [|n IH]; intros st; [split; reflexivity|].
  cbn [repeat final_state fold_left].
  destruct (IH (step st NoEcho)) as [H1 H2]. unfold final_state in H1, H2.
  destruct (step_rejected st NoEcho I) as [H3 H4].
  split; congruence.
Qed.

Lemma gap_step_shrinks (g : Q) : (1 # 1024 < g)%Q -> (gap_step g < g)%Q.
Proof.
  intros Hg. unfold gap_step. cbv zeta.
  destruct (Qle_bool (g - 19) ((3 # 4) * g + (1 # 4096))); lra.
Qed.

(** C3. A rejected reading (NoEcho, or a distance below 50 or above 2000)
    leaves the held reading unchanged and does not initialize the filter.
    After an accepted reading [R] and any number of NoEcho ticks the held
    reading is still [R], and on the next NoEcho tick the smoothed value
    moves toward [R]: it stays between its old value and [R], its
    distance to [R] drops by at least 19 mm or to at most 3/4 of itself
    plus 1/4096 ([gap_step]), and that distance strictly decreases
    whenever it exceeds 1/1024 mm. *)
Theorem gating_and_hold (st : filter_state) (raw : RawRange)
    (inputs : list RawRange) (R : Z) (n : nat) :
  rejected raw ->
  DIST_MIN_MM <= R <= DIST_MAX_MM ->
  (lastGoodMm (step st raw) = lastGoodMm st /\
   (hasValidDistance st = false -> hasValidDistance (step st raw) = false)) /\
  let held := final_state (step (final_state initial_state inputs) (Distance R))
                          (repeat NoEcho n) in
  lastGoodMm held = R /\
  lastGoodMm (step held NoEcho) = R /\
  toward R (distFiltered held) (distFiltered (step held NoEcho)) /\
  (Qabs (inject_Z R - F32.to_Q (distFiltered (step held NoEcho)))
   <= gap_step (Qabs (inject_Z R - F32.to_Q (distFiltered held))))%Q /\
  ((1 # 1024 < Qabs (inject_Z R - F32.to_Q (distFiltered held)))%Q ->
   (Qabs (inject_Z R - F32.to_Q (distFiltered (step held NoEcho)))
    < Qabs (inject_Z R - F32.to_Q (distFiltered held)))%Q).
Proof.
  intros Hrej HR. split.
  - destruct (step_rejected st raw Hrej) as [H1 H2].
    split; [assumption|]. intros Hu. rewrite H2. assumption.
  - cbv zeta.
    set (st0 := final_state initial_state inputs).
    set (st1 := step st0 (Distance R)).
    assert (Hok0 : state_ok st0) by (apply final_state_ok, initial_ok).
    assert (Hok1 : state_ok st1) by (apply step_ok; assumption).
    assert (Hl1 : lastGoodMm st1 = R).
    { unfold st1. rewrite step_eq, smooth_lastGood. cbn [raw_long].
      apply accept_lastGood. apply isDistanceValid_spec. assumption. }
    assert (Hv1 : hasValidDistance st1 = true).
    { unfold st1. rewrite step_eq, smooth_hasValid. cbn [raw_long].
      unfold accept. rewrite (proj2 (isDistanceValid_spec R) HR).
      destruct (hasValidDistance st0); reflexivity. }
    destruct (hold_NoEcho n st1) as [Hl Hv].
    set (held := final_state st1 (repeat NoEcho n)) in *.
    assert (Hokh : state_ok held) by (apply final_state_ok; assumption).
    rewrite Hl1 in Hl. rewrite Hv1 in Hv.
    split; [assumption|].
    split; [rewrite (proj1 (step_rejected held NoEcho I)); assumption|].
    rewrite step_distFiltered by assumption. cbn [raw_long].
    rewrite accept_rejected by reflexivity.
    pose proof (tick_gap held Hokh Hv R Hl) as Hgap.
    split; [rewrite <- Hl; apply tick_toward; assumption|].
    split; [exact Hgap|].
    intros Hfar. eapply Qle_lt_trans; [exact Hgap|].
    apply gap_step_shrinks. exact Hfar.
Qed.

Lemma gating_and_hold_witness :
  rejected (Distance 49) /\ DIST_MIN_MM <= 50 <= DIST_MAX_MM /\
  (lastGoodMm (step initial_state (Distance 49)) = lastGoodMm initial_state /\
   (hasValidDistance initial_state = false ->
    hasValidDistance (step initial_state (Distance 49)) = false)) /\
  let held := final_state (step (final_state initial_state [Distance 2000]) (Distance 50))
                          (repeat NoEcho 3) in
  lastGoodMm held = 50 /\
  lastGoodMm (step held NoEcho) = 50 /\
  toward 50 (distFiltered held) (distFiltered (step held NoEcho)) /\
  (Qabs (inject_Z 50 - F32.to_Q (distFiltered (step held NoEcho)))
   <= gap_step (Qabs (inject_Z 50 - F32.to_Q (distFiltered held))))%Q /\
  ((1 # 1024 < Qabs (inject_Z 50 - F32.to_Q (distFiltered held)))%Q ->
   (Qabs (inject_Z 50 - F32.to_Q (distFiltered (step held NoEcho)))
    < Qabs (inject_Z 50 - F32.to_Q (distFiltered held)))%Q).
Proof.
  split; [simpl; unfold DIST_MIN_MM; lia|].
  split; [unfold DIST_MIN_MM, DIST_MAX_MM; lia|].
  apply (gating_and_hold initial_state (Distance 49) [Distance 2000] 50 3);
    [simpl; unfold DIST_MIN_MM; lia|unfold DIST_MIN_MM, DIST_MAX_MM; lia].
Defined.

(** In that run the filter really moves: held at 50 from a smoothed 2000,
    the NoEcho ticks print 1980, 1960, 1940, 1920. *)
Example hold_moves_toward_reading :
  outputs initial_state [Distance 2000; Distance 50; NoEcho; NoEcho; NoEcho]
    = [2000; 1980; 1960; 1940; 1920].
Proof. vm_compute. reflexivity. Qed.

(** ** Convergence on a constant reading *)

Lemma constant_gap (V : Z) (n : nat) (st : filter_state) :
  state_ok st -> hasValidDistance st = true ->
  DIST_MIN_MM <= V <= DIST_MAX_MM ->
  (Qabs (inject_Z V - F32.to_Q (distFiltered (final_state st (repeat (Distance V) n))))
   <= gap_bound n (Qabs (inject_Z V - F32.to_Q (distFiltered st))))%Q.
Proof.
  intros Hok Hv HV. induction n as [|n IH]; [apply Qle_refl|].
  replace (repeat (Distance V) (S n)) with (repeat (Distance V) n ++ [Distance V])
    by (symmetry; apply (repeat_cons n (Distance V))).
  rewrite final_state_app. cbn [final_state fold_left gap_bound].
  fold (final_state st (repeat (Distance V) n)).
  set (stn := final_state st (repeat (Distance V) n)) in *.
  assert (Hokn : state_ok stn) by (apply final_state_ok; assumption).
  assert (Hvn : hasValidDistance stn = true) by (apply final_state_keeps_valid; assumption).
  rewrite Qred_correct.
  rewrite step_distFiltered by assumption. cbn [raw_long].
  pose proof (accept_ok stn V Hokn) as Hoka.
  pose proof (accept_keeps_valid stn V Hvn) as Hva.
  pose proof (tick_gap (accept stn V) Hoka Hva V) as Hg.
  rewrite accept_distFiltered in Hg by assumption.
  eapply Qle_trans; [apply Hg|].
  - apply accept_lastGood. apply isDistanceValid_spec. assumption.
  - apply gap_step_mono. exact IH.
Qed.

(** C6. From any initialized state the filter reaches, a constant valid
    reading [V] repeated for at least 120 ticks leaves the smoothed value
    within 1 mm of [V]; on a tick where the slew limit does not clamp, the
    gap to [V] shrinks by the factor [1 - alpha = 3/4], up to a rounding
    error of 1/4096. *)
Theorem convergence (inputs : list RawRange) (V : Z) (n : nat) :
  hasValidDistance (final_state initial_state inputs) = true ->
  DIST_MIN_MM <= V <= DIST_MAX_MM ->
  ((120 <= n)%nat ->
   (Qabs (inject_Z V
          - F32.to_Q (distFiltered (final_state (final_state initial_state inputs)
                                                (repeat (Distance V) n))))
    <= 1)%Q) /\
  (target_mm (accept (final_state initial_state inputs) (raw_long (Distance V))) = V ->
   (Qabs ((inject_Z V
           - F32.to_Q (distFiltered (step (final_state initial_state inputs) (Distance V))))
          - (3 # 4) * (inject_Z V - F32.to_Q (distFiltered (final_state initial_state inputs))))
    <= 1 # 4096)%Q).
Proof.
  intros Hv HV.
  set (st := final_state initial_state inputs) in *.
  assert (Hok : state_ok st) by (apply final_state_ok, initial_ok).
  split.
  - intros Hn.
    eapply Qle_trans; [apply constant_gap; assumption|].
    eapply Qle_trans; [|apply (gap_bound_settled n Hn)].
    apply gap_bound_mono.
    destruct (Hok Hv) as (_ & [H1 H2] & _).
    change (inject_Z DIST_MIN_MM) with 50%Q in H1.
    change (inject_Z DIST_MAX_MM) with 2000%Q in H2.
    assert (HVq : (50 <= inject_Z V <= 2000)%Q).
    { change 50%Q with (inject_Z DIST_MIN_MM). change 2000%Q with (inject_Z DIST_MAX_MM).
      split; apply inject_Z_le; lia. }
    apply Qabs_le_of_bounds. lra.
  - intros Ht. cbn [raw_long] in Ht.
    rewrite step_distFiltered by assumption. cbn [raw_long].
    pose proof (accept_ok st V Hok) as Hoka.
    pose proof (accept_keeps_valid st V Hv) as Hva.
    pose proof (tick_gap_geometric (accept st V) Hoka Hva V Ht) as Hg.
    rewrite accept_distFiltered in Hg by assumption. exact Hg.
Qed.

Lemma convergence_witness :
  hasValidDistance (final_state initial_state [Distance 100]) = true /\
  DIST_MIN_MM <= 2000 <= DIST_MAX_MM /\
  (Qabs (inject_Z 2000
         - F32.to_Q (distFiltered (final_state (final_state initial_state [Distance 100])
                                               (repeat (Distance 2000) 120))))
   <= 1)%Q.
Proof.
  split; [reflexivity|].
  split; [unfold DIST_MIN_MM, DIST_MAX_MM; lia|].
  apply (convergence [Distance 100] 2000 120);
    [reflexivity|unfold DIST_MIN_MM, DIST_MAX_MM; lia|lia].
Defined.

(** * Further properties of the firmware *)

(** ** The slew limiter *)

Lemma wrap32_small (z : Z) : long_range z -> wrap32 z = z.
Proof.
  unfold long_range, wrap32. intros Hz.
  rewrite Z.mod_small by lia. lia.
Qed.

(** Outside the precondition below the 32-bit subtraction overflows and
    the result steps away from the target. *)
Example clampStep_long_overflow :
  clampStep_long (-2000000000) 2000000000 80 = -2000000080.
Proof. vm_compute. reflexivity. Qed.

(** X1. On 32-bit [long] values whose difference [target - current] does
    not overflow, and for a step limit [maxStep >= 0], [clampStep] computes
    without wrap-around and moves from [current] toward [target] by exactly
    the smaller of the distance and the limit, never past the target. *)
Theorem clampStep_moves_by_limit (current target maxStep : Z) :
  long_range current -> long_range target -> long_range maxStep ->
  long_range (target - current) ->
  0 <= maxStep ->
  clampStep_long current target maxStep = clampStep current target maxStep /\
  long_range (clampStep_long current target maxStep) /\
  Z.abs (clampStep_long current target maxStep - current)
    = Z.min (Z.abs (target - current)) maxStep /\
  Z.abs (target - clampStep_long current target maxStep)
    = Z.max 0 (Z.abs (target - current) - maxStep) /\
  toward_mm target current (clampStep_long current target maxStep).
Proof.
  intros Hc Ht Hm Hd H0.
  assert (E : clampStep_long current target maxStep = clampStep current target maxStep).
  { unfold clampStep_long, clampStep. cbv zeta.
    rewrite (wrap32_small (target - current)) by assumption.
    rewrite (wrap32_small (- maxStep)) by (unfold long_range in *; lia).
    destruct (target - current >? maxStep) eqn:Hgt.
    - rewrite Z.gtb_ltb in Hgt. apply Z.ltb_lt in Hgt.
      apply wrap32_small. unfold long_range in *. lia.
    - destruct (target - current <? - maxStep) eqn:Hlt; [|reflexivity].
      apply Z.ltb_lt in Hlt. apply wrap32_small. unfold long_range in *. lia. }
  rewrite E. unfold clampStep, toward_mm. cbv zeta.
  destruct (target - current >? maxStep) eqn:Hgt; rewrite Z.gtb_ltb in Hgt;
    [apply Z.ltb_lt in Hgt; unfold long_range in *; lia|apply Z.ltb_ge in Hgt].
  destruct (target - current <? - maxStep) eqn:Hlt;
    [apply Z.ltb_lt in Hlt|apply Z.ltb_ge in Hlt]; unfold long_range in *; lia.
Qed.

Lemma clampStep_moves_by_limit_witness :
  long_range 500 /\ long_range 1800 /\ long_range 80 /\ long_range (1800 - 500) /\
  0 <= 80 /\
  clampStep_long 500 1800 80 = clampStep 500 1800 80 /\
  Z.abs (clampStep_long 500 1800 80 - 500) = Z.min (Z.abs (1800 - 500)) 80.
Proof.
  assert (H1 : long_range 500) by (unfold long_range; lia).
  assert (H2 : long_range 1800) by (unfold long_range; lia).
  assert (H3 : long_range 80) by (unfold long_range; lia).
  assert (H4 : long_range (1800 - 500)) by (unfold long_range; lia).
  split; [exact H1|]. split; [exact H2|]. split; [exact H3|]. split; [exact H4|].
  split; [lia|].
  destruct (clampStep_moves_by_limit 500 1800 80 H1 H2 H3 H4 ltac:(lia))
    as (E & _ & Hstep & _).
  split; [exact E|exact Hstep].
Defined.

(** The filter's own call stays inside that precondition: on every state
    it reaches, the 32-bit computation is the one modelled on [Z]. *)
Lemma filter_clampStep_long (st : filter_state) :
  state_ok st -> hasValidDistance st = true ->
  clampStep_long (round_mm (distFiltered st)) (lastGoodMm st) MAX_STEP_PER_SAMPLE_MM
    = clampStep (round_mm (distFiltered st)) (lastGoodMm st) MAX_STEP_PER_SAMPLE_MM.
Proof.
  intros Hok Hv. pose proof (state_ok_round_mm st Hok Hv) as Hc.
  destruct (Hok Hv) as (_ & _ & Hl).
  unfold DIST_MIN_MM, DIST_MAX_MM in *.
  unfold clampStep_long, clampStep, MAX_STEP_PER_SAMPLE_MM. cbv zeta.
  rewrite (wrap32_small (lastGoodMm st - round_mm (distFiltered st)))
    by (unfold long_range; lia).
  change (wrap32 (- (80))) with (- (80)).
  rewrite !wrap32_small by (unfold long_range; lia). reflexivity.
Qed.

(** ** The sample gate *)

Lemma u32_range (z : Z) : 0 <= u32 z < 2 ^ 32.
Proof. unfold u32. apply Z.mod_pos_bound. reflexivity. Qed.

Lemma u32_elapsed (last elapsed : Z) :
  0 <= elapsed < 2 ^ 32 -> u32 (u32 (last + elapsed) - last) = elapsed.
Proof.
  intros He. unfold u32.
  rewrite Zminus_mod_idemp_l.
  replace (last + elapsed - last) with elapsed by lia.
  apply Z.mod_small. assumption.
Qed.

(** X2. The sample gate is safe across the wrap-around of [millis()]:
    when [elapsed] milliseconds (fewer than [2^32]) have passed since the
    last sample, the pass is skipped exactly when [elapsed < 33], whatever
    the counter values are. *)
Theorem gate_wraparound (ls : loop_state) (hw : readings) (elapsed : Z) :
  0 <= elapsed < 2 ^ 32 ->
  millis hw = u32 (lastSampleMs ls + elapsed) ->
  (snd (loop ls hw) = None <-> elapsed < SAMPLE_INTERVAL_MS) /\
  (elapsed < SAMPLE_INTERVAL_MS -> loop ls hw = (ls, None)) /\
  (SAMPLE_INTERVAL_MS <= elapsed -> lastSampleMs (fst (loop ls hw)) = millis hw).
Proof.
  intros He Hm. unfold loop. cbv zeta.
  rewrite Hm, u32_elapsed by assumption.
  destruct (loop_filter (dist_state ls)
              (readUltrasonicMillimetersRaw (echo_us hw))) as [st' o].
  destruct (Z.ltb_spec elapsed SAMPLE_INTERVAL_MS) as [Hlt|Hge]; cbn [fst snd lastSampleMs].
  - split; [split; intros; [assumption|reflexivity]|].
    split; [reflexivity|lia].
  - split; [split; intros H; [discriminate|lia]|].
    split; [lia|reflexivity].
Qed.

Lemma gate_wraparound_witness :
  0 <= 40 < 2 ^ 32 /\
  millis (mkReadings 30 HIGH HIGH 0 0) = u32 (lastSampleMs (mkLoop (2 ^ 32 - 10) initial_state) + 40) /\
  (snd (loop (mkLoop (2 ^ 32 - 10) initial_state) (mkReadings 30 HIGH HIGH 0 0)) = None
   <-> 40 < SAMPLE_INTERVAL_MS).
Proof.
  split; [lia|]. split; [reflexivity|].
  apply (gate_wraparound (mkLoop (2 ^ 32 - 10) initial_state) (mkReadings 30 HIGH HIGH 0 0) 40);
    [lia|reflexivity].
Defined.

Lemma loop_skip (ls : loop_state) (hw : readings) :
  (u32 (millis hw - lastSampleMs ls) <? SAMPLE_INTERVAL_MS) = true ->
  loop ls hw = (ls, None).
Proof. intros H. unfold loop. cbv zeta. rewrite H. reflexivity. Qed.

Lemma loop_fire (ls : loop_state) (hw : readings) :
  (u32 (millis hw - lastSampleMs ls) <? SAMPLE_INTERVAL_MS) = false ->
  loop ls hw =
    (mkLoop (millis hw) (step (dist_state ls) (measure (echo_us hw))),
     Some (mkRecord (pressed (btn1_pin hw)) (pressed (btn2_pin hw)) (pot_adc hw)
                    (out_mm (step (dist_state ls) (measure (echo_us hw)))))).
Proof.
  intros H. unfold loop. cbv zeta. rewrite H.
  assert (E : raw_long (measure (echo_us hw)) = readUltrasonicMillimetersRaw (echo_us hw)).
  { unfold measure, readUltrasonicMillimetersRaw.
    destruct (echo_us hw =? 0); reflexivity. }
  rewrite <- E. reflexivity.
Qed.

(** X3. Printed lines are never closer than the sample interval: the
    [millis()] values of the printed lines are each at least 33 ms (in
    wrapping arithmetic) after the previous one, the first one after the
    initial [lastSampleMs]. *)
Theorem lines_are_spaced (ls : loop_state) (hws : list readings) :
  spaced (lastSampleMs ls) (map fst (snd (run_loop ls hws))).
Proof.
  revert ls. induction hws as [|hw rest IH]; intros ls; [exact I|].
  cbn [run_loop].
  destruct (u32 (millis hw - lastSampleMs ls) <? SAMPLE_INTERVAL_MS) eqn:Hg.
  - rewrite (loop_skip ls hw Hg).
    specialize (IH ls). destruct (run_loop ls rest) as [ls'' lines]. exact IH.
  - rewrite (loop_fire ls hw Hg).
    match goal with |- context [run_loop ?l rest] => specialize (IH l) end.
    destruct (run_loop _ rest) as [ls'' lines].
    cbn [snd map fst spaced]. split; [|exact IH].
    apply Z.ltb_ge in Hg. exact Hg.
Qed.

(** X4. The firmware is the stabilizer run on the sampled passes: the
    [dist_mm] fields printed are the stabilizer's outputs on the
    measurements of the passes where the gate opened, and passes that are
    skipped leave no trace in the filter state. *)
Theorem loop_runs_stabilizer (ls : loop_state) (hws : list readings) :
  map (fun l => dist_mm (snd l)) (snd (run_loop ls hws))
    = outputs (dist_state ls)
        (map (fun hw => measure (echo_us hw)) (sampled (lastSampleMs ls) hws)) /\
  dist_state (fst (run_loop ls hws))
    = final_state (dist_state ls)
        (map (fun hw => measure (echo_us hw)) (sampled (lastSampleMs ls) hws)).
Proof.
  revert ls. induction hws as [|hw rest IH]; intros ls; [split; reflexivity|].
  cbn [run_loop sampled].
  destruct (u32 (millis hw - lastSampleMs ls) <? SAMPLE_INTERVAL_MS) eqn:Hg.
  - rewrite (loop_skip ls hw Hg).
    specialize (IH ls). destruct (run_loop ls rest) as [ls'' lines]. exact IH.
  - rewrite (loop_fire ls hw Hg).
    match goal with |- context [run_loop ?l rest] => specialize (IH l) end.
    destruct (run_loop _ rest) as [ls'' lines].
    cbn [fst snd lastSampleMs dist_state] in IH |- *.
    destruct IH as [IH1 IH2]. split.
    + cbn [map snd dist_mm]. unfold outputs in *. cbn [trace map].
      rewrite update_eq. cbn [fst]. f_equal. exact IH1.
    + cbn [map final_state fold_left]. exact IH2.
Qed.

Lemma run_loop_state_ok (hws : list readings) (ls : loop_state) :
  state_ok (dist_state ls) -> state_ok (dist_state (fst (run_loop ls hws))).
Proof.
  revert ls. induction hws as [|hw rest IH]; intros ls Hok; [assumption|].
  cbn [run_loop].
  destruct (u32 (millis hw - lastSampleMs ls) <? SAMPLE_INTERVAL_MS) eqn:Hg.
  - rewrite (loop_skip ls hw Hg).
    specialize (IH ls Hok). destruct (run_loop ls rest) as [ls'' lines]. exact IH.
  - rewrite (loop_fire ls hw Hg).
    match goal with |- context [run_loop ?l rest] => specialize (IH l) end.
    destruct (run_loop _ rest) as [ls'' lines].
    apply IH. cbn [dist_state]. apply step_ok. assumption.
Qed.

Lemma pressed_01 (l : level) : pressed l = 0 \/ pressed l = 1.
Proof. destruct l; [right|left]; reflexivity. Qed.

Lemma out_mm_values (st : filter_state) :
  state_ok st -> out_mm st = 0 \/ DIST_MIN_MM <= out_mm st <= DIST_MAX_MM.
Proof.
  intros Hok. unfold out_mm. destruct (hasValidDistance st) eqn:Hv; [right|left; reflexivity].
  apply state_ok_round_mm; assumption.
Qed.

Lemma run_loop_lines (P : csv_record -> Prop) :
  (forall ls hw r, state_ok (dist_state ls) -> snd (loop ls hw) = Some r -> P r) ->
  forall hws ls, state_ok (dist_state ls) ->
  Forall (fun l => P (snd l)) (snd (run_loop ls hws)).
Proof.
  intros HP hws. induction hws as [|hw rest IH]; intros ls Hok; [constructor|].
  cbn [run_loop].
  destruct (u32 (millis hw - lastSampleMs ls) <? SAMPLE_INTERVAL_MS) eqn:Hg.
  - rewrite (loop_skip ls hw Hg).
    specialize (IH ls Hok). destruct (run_loop ls rest) as [ls'' lines]. exact IH.
  - pose proof (HP ls hw) as HP1. rewrite (loop_fire ls hw Hg) in HP1 |- *.
    match goal with |- context [run_loop ?l rest] => specialize (IH l) end.
    destruct (run_loop _ rest) as [ls'' lines].
    cbn [snd]. constructor.
    + cbn [snd]. apply HP1; [assumption|reflexivity].
    + apply IH. cbn [dist_state]. apply step_ok. assumption.
Qed.

(** X5. Every line the filtered firmware prints after boot, whatever the
    board reads (any clock, pins, ADC value or pulse width), has both
    button fields in {0, 1} and a [dist_mm] that is 0 or lies in
    [50, 2000]; in particular it is never negative. *)
Theorem printed_lines_valid (hws : list readings) :
  Forall (fun l =>
            (btn1 (snd l) = 0 \/ btn1 (snd l) = 1) /\
            (btn2 (snd l) = 0 \/ btn2 (snd l) = 1) /\
            (dist_mm (snd l) = 0 \/ DIST_MIN_MM <= dist_mm (snd l) <= DIST_MAX_MM))
         (snd (run_loop boot_state hws)).
Proof.
  apply (run_loop_lines
           (fun r => (btn1 r = 0 \/ btn1 r = 1) /\ (btn2 r = 0 \/ btn2 r = 1) /\
                     (dist_mm r = 0 \/ DIST_MIN_MM <= dist_mm r <= DIST_MAX_MM)));
    [|apply initial_ok].
  intros ls hw r Hok Hr.
  destruct (u32 (millis hw - lastSampleMs ls) <? SAMPLE_INTERVAL_MS) eqn:Hg.
  - rewrite (loop_skip ls hw Hg) in Hr. discriminate.
  - rewrite (loop_fire ls hw Hg) in Hr. cbn [snd] in Hr.
    injection Hr as <-. cbn [btn1 btn2 dist_mm].
    split; [apply pressed_01|]. split; [apply pressed_01|].
    apply out_mm_values. apply step_ok. assumption.
Qed.

(** ** The ranging unit *)

Lemma raw_is_nearest (d : Z) :
  0 < d <= US_ECHO_TIMEOUT_US -> readUltrasonicMillimetersRaw d = nearest_mm d.
Proof.
  intros Hd. apply Z.eqb_eq.
  apply (forall_from_spec _ _ 1 ranging_exhaustive).
  unfold US_ECHO_TIMEOUT_US in *. lia.
Qed.

Lemma nearest_mm_mono (d d' : Z) : d <= d' -> nearest_mm d <= nearest_mm d'.
Proof.
  intros H. unfold nearest_mm. apply Qfloor_resp_le.
  apply inject_Z_le in H.
  unfold Qdiv. change (/ 2)%Q with (1 # 2)%Q. lra.
Qed.

(** X6. Within the echo timeout the measured distance is monotone in the
    pulse width and lies between 0 and 5145 mm. *)
Theorem measurement_monotone (d d' : Z) :
  0 < d -> d <= d' -> d' <= US_ECHO_TIMEOUT_US ->
  readUltrasonicMillimetersRaw d <= readUltrasonicMillimetersRaw d' /\
  0 <= readUltrasonicMillimetersRaw d <= 5145.
Proof.
  intros H0 H1 H2.
  rewrite !raw_is_nearest by lia.
  split; [apply nearest_mm_mono; assumption|].
  split; [apply nearest_mm_nonneg; lia|].
  change 5145 with (nearest_mm US_ECHO_TIMEOUT_US).
  apply nearest_mm_mono. lia.
Qed.

Lemma measurement_monotone_witness :
  0 < 289 /\ 289 <= 11664 /\ 11664 <= US_ECHO_TIMEOUT_US /\
  readUltrasonicMillimetersRaw 289 <= readUltrasonicMillimetersRaw 11664.
Proof.
  split; [lia|]. split; [lia|]. split; [unfold US_ECHO_TIMEOUT_US; lia|].
  apply (measurement_monotone 289 11664); [lia|lia|unfold US_ECHO_TIMEOUT_US; lia].
Defined.

Lemma gate_widths_exhaustive :
  forall_from
    (fun d => Bool.eqb (isDistanceValid (readUltrasonicMillimetersRaw d))
                       ((289 <=? d) && (d <=? 11664)))
    0 (Z.to_nat (US_ECHO_TIMEOUT_US + 1)) = true.
Proof. vm_compute. reflexivity. Qed.

(** X7. Measurement and validity gate together: within the echo timeout,
    a pulse width is accepted by the stabilizer exactly when it lies
    between 289 and 11664 microseconds; a timeout and every other width
    are held over. *)
Theorem accepted_pulse_widths (d : Z) :
  0 <= d <= US_ECHO_TIMEOUT_US ->
  (isDistanceValid (readUltrasonicMillimetersRaw d) = true <-> 289 <= d <= 11664).
Proof.
  intros Hd.
  pose proof (forall_from_spec _ _ 0 gate_widths_exhaustive d) as H.
  cbv beta in H. specialize (H ltac:(unfold US_ECHO_TIMEOUT_US in *; lia)).
  apply Bool.eqb_prop in H. rewrite H.
  rewrite andb_true_iff, !Z.leb_le. reflexivity.
Qed.

Lemma accepted_pulse_widths_witness :
  0 <= 289 <= US_ECHO_TIMEOUT_US /\
  isDistanceValid (readUltrasonicMillimetersRaw 289) = true.
Proof.
  split; [unfold US_ECHO_TIMEOUT_US; lia|].
  apply (accepted_pulse_widths 289); [unfold US_ECHO_TIMEOUT_US; lia|lia].
Defined.

(** ** The unfiltered variant *)

(** X8. The unfiltered firmware does no gating: on a sampled pass it
    prints -1 exactly when the echo timed out, and otherwise the nearest
    millimetre of [d * 0.343 / 2], anywhere from 0 to 5145. *)
Theorem unfiltered_forwards_raw (last : Z) (hw : readings) :
  0 <= echo_us hw <= US_ECHO_TIMEOUT_US ->
  SAMPLE_INTERVAL_MS <= u32 (millis hw - last) ->
  exists r,
    Unfiltered.loop last hw = (millis hw, Some r) /\
    btn1 r = pressed (btn1_pin hw) /\ btn2 r = pressed (btn2_pin hw) /\
    pot r = pot_adc hw /\
    (dist_mm r = Unfiltered.DIST_NO_ECHO <-> echo_us hw = 0) /\
    (0 < echo_us hw -> dist_mm r = nearest_mm (echo_us hw) /\ 0 <= dist_mm r <= 5145).
Proof.
  intros Hd Hg. apply Z.ltb_ge in Hg.
  unfold Unfiltered.loop. cbv zeta. rewrite Hg.
  eexists. split; [reflexivity|]. cbn [btn1 btn2 pot dist_mm].
  split; [reflexivity|]. split; [reflexivity|]. split; [reflexivity|].
  change (Unfiltered.readUltrasonicMillimeters (echo_us hw))
    with (readUltrasonicMillimetersRaw (echo_us hw)).
  assert (Hpos : 0 < echo_us hw ->
                 readUltrasonicMillimetersRaw (echo_us hw) = nearest_mm (echo_us hw) /\
                 0 <= readUltrasonicMillimetersRaw (echo_us hw) <= 5145).
  { intros H0. rewrite raw_is_nearest by lia.
    split; [reflexivity|]. split; [apply nearest_mm_nonneg; lia|].
    change 5145 with (nearest_mm US_ECHO_TIMEOUT_US). apply nearest_mm_mono. lia. }
  split; [|exact Hpos].
  unfold Unfiltered.DIST_NO_ECHO. split; intros H.
  - destruct (Z.eq_dec (echo_us hw) 0) as [|Hne]; [assumption|exfalso].
    destruct (Hpos ltac:(lia)) as [_ Hr]. lia.
  - rewrite H. reflexivity.
Qed.

Lemma unfiltered_forwards_raw_witness :
  0 <= echo_us (mkReadings 40 LOW HIGH 2048 0) <= US_ECHO_TIMEOUT_US /\
  SAMPLE_INTERVAL_MS <= u32 (millis (mkReadings 40 LOW HIGH 2048 0) - 0) /\
  exists r, Unfiltered.loop 0 (mkReadings 40 LOW HIGH 2048 0) = (40, Some r) /\
            dist_mm r = -1.
Proof.
  split; [unfold US_ECHO_TIMEOUT_US; simpl; lia|].
  split; [vm_compute; discriminate|].
  destruct (unfiltered_forwards_raw 0 (mkReadings 40 LOW HIGH 2048 0))
    as (r & Hl & _ & _ & _ & Hd & _);
    [unfold US_ECHO_TIMEOUT_US; simpl; lia|vm_compute; discriminate|].
  exists r. split; [exact Hl|]. apply Hd. reflexivity.
Defined.

(** ** Initialization *)

Lemma step_uninitialized (st : filter_state) (raw : RawRange) :
  hasValidDistance st = false -> isDistanceValid (raw_long raw) = false ->
  step st raw = st.
Proof.
  intros Hu Hr. rewrite step_eq, accept_rejected by assumption.
  unfold smooth. rewrite Hu. reflexivity.
Qed.

Lemma step_hasValid (st : filter_state) (raw : RawRange) :
  hasValidDistance (step st raw)
    = hasValidDistance st || isDistanceValid (raw_long raw).
Proof.
  rewrite step_eq, smooth_hasValid. unfold accept.
  destruct (isDistanceValid (raw_long raw)); [|rewrite orb_false_r; reflexivity].
  destruct (hasValidDistance st); reflexivity.
Qed.

(** X9. The filter is initialized exactly when some reading so far has
    passed the validity gate; until then rejected readings leave no trace:
    the state is still the initial one. *)
Theorem initialized_iff_accepted (inputs : list RawRange) :
  hasValidDistance (final_state initial_state inputs)
    = existsb (fun r => isDistanceValid (raw_long r)) inputs /\
  (hasValidDistance (final_state initial_state inputs) = false ->
   final_state initial_state inputs = initial_state).
Proof.
  assert (G : forall st,
             hasValidDistance (final_state st inputs)
               = hasValidDistance st || existsb (fun r => isDistanceValid (raw_long r)) inputs /\
             (hasValidDistance (final_state st inputs) = false -> final_state st inputs = st)).
  { induction inputs as [|r rest IH]; intros st.
    - cbn [final_state fold_left existsb]. rewrite orb_false_r. split; [reflexivity|auto].
    - cbn [final_state fold_left existsb]. destruct (IH (step st r)) as [H1 H2].
      unfold final_state in H1, H2. split.
      + rewrite H1, step_hasValid, orb_assoc. reflexivity.
      + intros Hf. rewrite (H2 Hf).
        rewrite H1 in Hf. apply orb_false_iff in Hf. destruct Hf as [Hf _].
        rewrite step_hasValid in Hf.
        apply orb_false_iff in Hf. destruct Hf as [Hu Hr].
        apply step_uninitialized; assumption. }
  destruct (G initial_state) as [H1 H2]. split; [exact H1|exact H2].
Qed.

(** ** The settled filter *)

Lemma settled_step (V : Z) (raw : RawRange) :
  DIST_MIN_MM <= V <= DIST_MAX_MM -> keeps V raw ->
  update raw (mkState true V (of_Z V)) = (V, mkState true V (of_Z V)).
Proof.
  intros HV Hk.
  assert (Ha : accept (mkState true V (of_Z V)) (raw_long raw) = mkState true V (of_Z V)).
  { destruct Hk as [Hrej | ->].
    - apply accept_rejected, rejected_invalid. assumption.
    - unfold accept. cbn [raw_long].
      rewrite (proj2 (isDistanceValid_spec V) HV). reflexivity. }
  assert (Ht : target_mm (mkState true V (of_Z V)) = V).
  { unfold target_mm. cbn [hasValidDistance lastGoodMm distFiltered ENABLE_SLEW_LIMIT andb].
    rewrite round_mm_of_Z by assumption. apply clampStep_same. }
  rewrite update_eq, step_eq, Ha, Ht.
  unfold smooth, out_mm. cbn [hasValidDistance lastGoodMm distFiltered].
  rewrite ema_of_Z by assumption. rewrite round_mm_of_Z by assumption.
  reflexivity.
Qed.

(** X10. A filter whose smoothed value equals its held reading [V] is at
    rest: timeouts, out-of-range readings and repetitions of [V] leave the
    state exactly as it is, and every such tick prints [V]. *)
Theorem settled_filter_is_fixed (V : Z) (inputs : list RawRange) :
  DIST_MIN_MM <= V <= DIST_MAX_MM ->
  Forall (keeps V) inputs ->
  final_state (mkState true V (F32.of_Z V)) inputs = mkState true V (F32.of_Z V) /\
  outputs (mkState true V (F32.of_Z V)) inputs = repeat V (length inputs).
Proof.
  intros HV Hall. induction Hall as [|r rest Hr Hrest IH]; [split; reflexivity|].
  pose proof (settled_step V r HV Hr) as Hs.
  assert (Hstep : step (mkState true V (of_Z V)) r = mkState true V (of_Z V)).
  { unfold step. rewrite Hs. reflexivity. }
  destruct IH as [IH1 IH2]. split.
  - cbn [final_state fold_left]. rewrite Hstep. exact IH1.
  - unfold outputs in *. cbn [trace map length repeat]. rewrite Hs, Hstep.
    cbn [fst]. f_equal. exact IH2.
Qed.

Lemma settled_filter_is_fixed_witness :
  DIST_MIN_MM <= 500 <= DIST_MAX_MM /\
  Forall (keeps 500) [NoEcho; Distance 500; Distance 3000] /\
  outputs (mkState true 500 (F32.of_Z 500)) [NoEcho; Distance 500; Distance 3000]
    = [500; 500; 500].
Proof.
  assert (HV : DIST_MIN_MM <= 500 <= DIST_MAX_MM)
    by (unfold DIST_MIN_MM, DIST_MAX_MM; lia).
  assert (Hk : Forall (keeps 500) [NoEcho; Distance 500; Distance 3000]).
  { apply Forall_cons; [left; exact I|].
    apply Forall_cons; [right; reflexivity|].
    apply Forall_cons; [left; simpl; unfold DIST_MAX_MM; lia|].
    apply Forall_nil. }
  split; [exact HV|]. split; [exact Hk|].
  apply (settled_filter_is_fixed 500 [NoEcho; Distance 500; Distance 3000] HV Hk).
Defined.

(** ** No overshoot *)

Lemma step_lastGood (st : filter_state) (raw : RawRange) :
  lastGoodMm (step st raw) = lastGoodMm (accept st (raw_long raw)).
Proof. rewrite step_eq. apply smooth_lastGood. Qed.

Lemma step_toward (st : filter_state) (raw : RawRange) :
  state_ok st -> hasValidDistance st = true ->
  toward (lastGoodMm (step st raw)) (distFiltered st) (distFiltered (step st raw)).
Proof.
  intros Hok Hv.
  pose proof (accept_ok st (raw_long raw) Hok) as Hok1.
  pose proof (accept_keeps_valid st (raw_long raw) Hv) as Hv1.
  pose proof (tick_toward (accept st (raw_long raw)) Hok1 Hv1) as H.
  rewrite accept_distFiltered in H by assumption.
  rewrite step_lastGood, step_distFiltered by assumption. exact H.
Qed.

(** X11. On every tick after initialization, whether the reading is
    accepted or rejected, the new smoothed value lies between the old one
    and the reading held after the tick: the filter never overshoots and
    never moves away from it. *)
Theorem smoothing_never_overshoots (inputs : list RawRange) (raw : RawRange) :
  hasValidDistance (final_state initial_state inputs) = true ->
  toward (lastGoodMm (step (final_state initial_state inputs) raw))
         (distFiltered (final_state initial_state inputs))
         (distFiltered (step (final_state initial_state inputs) raw)).
Proof.
  intros Hv. apply step_toward; [|assumption].
  apply final_state_ok, initial_ok.
Qed.

Lemma smoothing_never_overshoots_witness :
  hasValidDistance (final_state initial_state [Distance 500]) = true /\
  toward (lastGoodMm (step (final_state initial_state [Distance 500]) (Distance 1800)))
         (distFiltered (final_state initial_state [Distance 500]))
         (distFiltered (step (final_state initial_state [Distance 500]) (Distance 1800))).
Proof.
  split; [reflexivity|].
  apply (smoothing_never_overshoots [Distance 500] (Distance 1800)). reflexivity.
Defined.

(** ** The printed value is the nearest millimetre *)

(** Comparisons of rationals with literal denominators, as comparisons of
    integers. *)
Ltac q2z :=
  unfold Qle, Qlt, Qeq, Qplus, Qminus, Qopp, Qmult, inject_Z in *;
  cbn [Qnum Qden Pos.mul] in *.

Ltac half_gap_case p p' e e' :=
  change (2 ^ e)%Q with (1 # Z.to_pos p)%Q in *;
  let n := match goal with |- context [inject_Z (?n + 1)] => n end in
  destruct (Z_lt_le_dec ((n + 1) * p - 1) (2 ^ 24));
  [ exists (inject_Z ((n + 1) * p - 1) * 2 ^ e)%Q;
    split; [exists ((n + 1) * p - 1), e;
            split; [q2z; lia|split; [lia|reflexivity]]|];
    change (2 ^ e)%Q with (1 # Z.to_pos p)%Q; q2z; lia
  | exists (inject_Z ((n + 1) * p' - 1) * 2 ^ e')%Q;
    split; [exists ((n + 1) * p' - 1), e';
            split; [q2z; lia|split; [lia|reflexivity]]|];
    change (2 ^ e')%Q with (1 # Z.to_pos p')%Q; q2z; lia ].

(** A sum [m * 2^e + 1/2] below the integer [n + 1] is at most a binary32
    number that is itself below [n + 1]: the last multiple of [2^e] before
    it or, past the next power of two, the last multiple of [2^(e+1)]. *)
Lemma half_sum_gap (m n e : Z) :
  2 ^ 23 <= m < 2 ^ 24 -> -18 <= e <= -13 ->
  (inject_Z n <= inject_Z m * 2 ^ e + (1 # 2))%Q ->
  (inject_Z m * 2 ^ e + (1 # 2) < inject_Z (n + 1))%Q ->
  exists b, rep (-24) b /\
            (inject_Z m * 2 ^ e + (1 # 2) <= b)%Q /\ (b < inject_Z (n + 1))%Q.
Proof.
  intros Hm He Hlo Hhi.
  assert (Hcases : e = -18 \/ e = -17 \/ e = -16 \/ e = -15 \/ e = -14 \/ e = -13) by lia.
  destruct Hcases as [-> | [-> | [-> | [-> | [-> | ->]]]]].
  - half_gap_case 262144 131072 (-18) (-17).
  - half_gap_case 131072 65536 (-17) (-16).
  - half_gap_case 65536 32768 (-16) (-15).
  - half_gap_case 32768 16384 (-15) (-14).
  - half_gap_case 16384 8192 (-14) (-13).
  - half_gap_case 8192 4096 (-13) (-12).
Qed.

(** [(long)(x + 0.5f)] is the exact round-half-up of a smoothed value in
    the validity interval: the binary32 sum never reaches the next
    integer. *)
Lemma round_mm_exact (x : float) :
  normal (-18) (-13) x -> in_range x ->
  round_mm x = Qfloor (to_Q x + (1 # 2)).
Proof.
  intros Hn [H1 H2].
  change (inject_Z DIST_MIN_MM) with 50%Q in H1.
  change (inject_Z DIST_MAX_MM) with 2000%Q in H2.
  assert (Hn24 : normal (-24) 0 x)
    by (apply (normal_weaken (-18) (-24) (-13) 0); (lia || assumption)).
  assert (Hpos : (0 <= to_Q x)%Q) by lra.
  assert (Hmax : (to_Q x <= 4096)%Q) by lra.
  pose proof (Qfloor_le (to_Q x + (1 # 2))) as Hlo.
  pose proof (Qlt_floor (to_Q x + (1 # 2))) as Hhi.
  set (n := Qfloor (to_Q x + (1 # 2))) in *.
  apply Z.le_antisymm; [|apply round_mm_lower; assumption].
  destruct (round_mm_rounded x Hn24) as [_ _ Hu _].
  destruct (round_mm_floor x Hn24 Hpos Hmax) as [Hf _].
  destruct x as [s| | |s m e]; simpl normal in Hn; try contradiction.
  destruct Hn as [Hd He].
  pose proof (to_Q_sign s m e Hpos) as ->.
  pose proof (digits2_pos_bounds m) as Hm. rewrite Hd in Hm.
  change (24 - 1) with 23 in Hm.
  assert (HX : to_Q (S754_finite false m e) = (inject_Z (Zpos m) * 2 ^ e)%Q) by reflexivity.
  rewrite HX in Hlo, Hhi, Hu.
  destruct (half_sum_gap (Zpos m) n e Hm He Hlo Hhi) as (b & Hrep & Hb1 & Hb2).
  specialize (Hu b Hrep Hb1).
  assert (Hlt : (inject_Z (round_mm (S754_finite false m e)) < inject_Z (n + 1))%Q).
  { eapply Qle_lt_trans; [exact Hf|]. eapply Qle_lt_trans; [exact Hu|exact Hb2]. }
  rewrite <- Zlt_Qlt in Hlt. lia.
Qed.

Lemma state_round_exact (st : filter_state) :
  state_ok st -> hasValidDistance st = true ->
  out_mm st = Qfloor (to_Q (distFiltered st) + (1 # 2)).
Proof.
  intros Hok Hv. destruct (Hok Hv) as (Hn & Hr & _).
  unfold out_mm. rewrite Hv. apply round_mm_exact; assumption.
Qed.

(** X12. After initialization the printed value is exactly the smoothed
    value rounded to the nearest millimetre, halves upward: the binary32
    addition of 0.5 before the cast never rounds up to the next integer
    for a value in [50, 2000]. *)
Theorem printed_is_nearest_mm (inputs : list RawRange) :
  hasValidDistance (final_state initial_state inputs) = true ->
  out_mm (final_state initial_state inputs)
    = Qfloor (F32.to_Q (distFiltered (final_state initial_state inputs)) + (1 # 2)).
Proof.
  intros Hv. apply state_round_exact; [|assumption].
  apply final_state_ok, initial_ok.
Qed.

Lemma printed_is_nearest_mm_witness :
  hasValidDistance (final_state initial_state [Distance 500; Distance 1800]) = true /\
  out_mm (final_state initial_state [Distance 500; Distance 1800])
    = Qfloor (F32.to_Q (distFiltered (final_state initial_state [Distance 500; Distance 1800]))
              + (1 # 2)).
Proof.
  split; [reflexivity|].
  apply (printed_is_nearest_mm [Distance 500; Distance 1800]). reflexivity.
Defined.

Lemma out_mm_mono (st st' : filter_state) :
  state_ok st -> hasValidDistance st = true ->
  state_ok st' -> hasValidDistance st' = true ->
  (to_Q (distFiltered st) <= to_Q (distFiltered st'))%Q ->
  out_mm st <= out_mm st'.
Proof.
  intros Hok Hv Hok' Hv' Hle.
  rewrite !state_round_exact by assumption.
  apply Qfloor_resp_le. lra.
Qed.

Lemma out_mm_le (st : filter_state) (n : Z) :
  state_ok st -> hasValidDistance st = true ->
  (to_Q (distFiltered st) <= inject_Z n)%Q -> out_mm st <= n.
Proof.
  intros Hok Hv Hle. destruct (state_ok_normal24 st Hok Hv) as [Hn Hr].
  unfold out_mm. rewrite Hv. apply round_mm_le; try assumption; lra.
Qed.

Lemma out_mm_ge (st : filter_state) (n : Z) :
  state_ok st -> hasValidDistance st = true ->
  (inject_Z n <= to_Q (distFiltered st))%Q -> n <= out_mm st.
Proof.
  intros Hok Hv Hle. destruct (state_ok_normal24 st Hok Hv) as [Hn Hr].
  unfold out_mm. rewrite Hv. apply round_mm_ge; try assumption; lra.
Qed.

(** X13. The printed value itself never overshoots: on every tick after
    initialization the new printed value lies between the previous one and
    the reading held after the tick. *)
Theorem printed_never_overshoots (inputs : list RawRange) (raw : RawRange) :
  hasValidDistance (final_state initial_state inputs) = true ->
  toward_mm (lastGoodMm (step (final_state initial_state inputs) raw))
            (out_mm (final_state initial_state inputs))
            (out_mm (step (final_state initial_state inputs) raw)).
Proof.
  intros Hv. set (st := final_state initial_state inputs) in *.
  assert (Hok : state_ok st) by (apply final_state_ok, initial_ok).
  pose proof (step_ok st raw Hok) as Hok'.
  pose proof (step_keeps_valid st raw Hv) as Hv'.
  destruct (step_toward st raw Hok Hv) as [Hup Hdown].
  set (R := lastGoodMm (step st raw)) in *.
  pose proof (out_mm_mono st (step st raw) Hok Hv Hok' Hv') as Hm1.
  pose proof (out_mm_mono (step st raw) st Hok' Hv' Hok Hv) as Hm2.
  pose proof (out_mm_le st R Hok Hv) as Hle.
  pose proof (out_mm_ge st R Hok Hv) as Hge.
  pose proof (out_mm_le (step st raw) R Hok' Hv') as Hle'.
  pose proof (out_mm_ge (step st raw) R Hok' Hv') as Hge'.
  unfold toward_mm.
  destruct (Qlt_le_dec (inject_Z R) (to_Q (distFiltered st))) as [C|C].
  - specialize (Hdown (Qlt_le_weak _ _ C)).
    specialize (Hge (Qlt_le_weak _ _ C)).
    specialize (Hge' (proj1 Hdown)). specialize (Hm2 (proj2 Hdown)). lia.
  - specialize (Hup C). specialize (Hle C).
    specialize (Hle' (proj2 Hup)). specialize (Hm1 (proj1 Hup)). lia.
Qed.

Lemma printed_never_overshoots_witness :
  hasValidDistance (final_state initial_state [Distance 500]) = true /\
  toward_mm (lastGoodMm (step (final_state initial_state [Distance 500]) (Distance 1800)))
            (out_mm (final_state initial_state [Distance 500]))
            (out_mm (step (final_state initial_state [Distance 500]) (Distance 1800))).
Proof.
  split; [reflexivity|].
  apply (printed_never_overshoots [Distance 500] (Distance 1800)). reflexivity.
Defined.

(** ** Tracking speed *)

Lemma tick_smoothed_change (st : filter_state) :
  state_ok st -> hasValidDistance st = true ->
  (Qabs (to_Q (ema (distFiltered st) (target_mm st)) - to_Q (distFiltered st))
   <= 81 # 4)%Q.
Proof.
  intros Hok Hv.
  destruct (tick_facts st Hok Hv) as (Hn & Hr & Ht & Hc & Hnear).
  pose proof (ema_error _ _ Hn Hr Ht) as Herr.
  pose proof (Qabs_bounds (to_Q (ema (distFiltered st) (target_mm st))
                           - (to_Q (distFiltered st)
                              + (1 # 4) * (inject_Z (target_mm st) - to_Q (distFiltered st)))))
    as Hab.
  destruct (clampStep_spec (round_mm (distFiltered st)) (lastGoodMm st)) as (Hstep & _).
  rewrite <- Hc in Hstep. unfold MAX_STEP_PER_SAMPLE_MM in Hstep.
  assert (H1 : (inject_Z (target_mm st) <= inject_Z (round_mm (distFiltered st)) + 80)%Q).
  { change 80%Q with (inject_Z 80). rewrite <- inject_Z_plus. apply inject_Z_le. lia. }
  assert (H2 : (inject_Z (round_mm (distFiltered st)) <= inject_Z (target_mm st) + 80)%Q).
  { change 80%Q with (inject_Z 80). rewrite <- inject_Z_plus. apply inject_Z_le. lia. }
  apply Qabs_le_of_bounds. lra.
Qed.

(** X14. After initialization a tick changes the printed value by at most
    21 mm and the smoothed value by at most 20.25 mm, although the step
    limit is 80: the limiter clamps the target and the smoothing then
    takes a quarter of the way.  A change of 20 mm occurs. *)
Theorem effective_slew_rate (inputs : list RawRange) (raw : RawRange) :
  hasValidDistance (final_state initial_state inputs) = true ->
  Z.abs (out_mm (step (final_state initial_state inputs) raw)
         - out_mm (final_state initial_state inputs)) <= 21 /\
  (Qabs (F32.to_Q (distFiltered (step (final_state initial_state inputs) raw))
         - F32.to_Q (distFiltered (final_state initial_state inputs)))
   <= 81 # 4)%Q /\
  out_mm (step (final_state initial_state [Distance 500]) (Distance 1800))
    - out_mm (final_state initial_state [Distance 500]) = 20.
Proof.
  intros Hv. set (st := final_state initial_state inputs) in *.
  assert (Hok : state_ok st) by (apply final_state_ok, initial_ok).
  pose proof (accept_ok st (raw_long raw) Hok) as Hok1.
  pose proof (accept_keeps_valid st (raw_long raw) Hv) as Hv1.
  split; [|split; [|vm_compute; reflexivity]].
  - pose proof (tick_out_change (accept st (raw_long raw)) Hok1 Hv1) as H.
    rewrite accept_distFiltered in H by assumption.
    unfold out_mm. rewrite Hv, (step_keeps_valid st raw Hv).
    rewrite step_distFiltered by assumption. exact H.
  - pose proof (tick_smoothed_change (accept st (raw_long raw)) Hok1 Hv1) as H.
    rewrite accept_distFiltered in H by assumption.
    rewrite step_distFiltered by assumption. exact H.
Qed.

Lemma effective_slew_rate_witness :
  hasValidDistance (final_state initial_state [Distance 500]) = true /\
  Z.abs (out_mm (step (final_state initial_state [Distance 500]) (Distance 50))
         - out_mm (final_state initial_state [Distance 500])) <= 21.
Proof.
  split; [reflexivity|].
  apply (effective_slew_rate [Distance 500] (Distance 50)). reflexivity.
Defined.

Lemma tick_clamped_advance (st : filter_state) :
  state_ok st -> hasValidDistance st = true ->
  Z.abs (lastGoodMm st - round_mm (distFiltered st)) > MAX_STEP_PER_SAMPLE_MM ->
  19 <= Z.abs (lastGoodMm st - round_mm (distFiltered st))
        - Z.abs (lastGoodMm st - round_mm (ema (distFiltered st) (target_mm st)))
     <= 21.
Proof.
  intros Hok Hv Hfar.
  destruct (tick_facts st Hok Hv) as (Hn & Hr & Ht & Hc & Hnear).
  pose proof (ema_error _ _ Hn Hr Ht) as Herr.
  pose proof (Qabs_bounds (to_Q (ema (distFiltered st) (target_mm st))
                           - (to_Q (distFiltered st)
                              + (1 # 4) * (inject_Z (target_mm st) - to_Q (distFiltered st)))))
    as Hab.
  destruct (ema_between _ _ Hn Hr Ht) as [Hup Hdown].
  pose proof (ema_normal _ _ Hn Hr Ht) as Hn'.
  pose proof (ema_in_range _ _ Hn Hr Ht) as [Hr1 Hr2].
  change (inject_Z DIST_MIN_MM) with 50%Q in Hr1.
  change (inject_Z DIST_MAX_MM) with 2000%Q in Hr2.
  assert (Hn24 : normal (-24) 0 (ema (distFiltered st) (target_mm st)))
    by (apply (normal_weaken (-18) (-24) (-13) 0); (lia || assumption)).
  pose proof (tick_out_change st Hok Hv) as Hchange.
  pose proof (clampStep_cases (round_mm (distFiltered st)) (lastGoodMm st)) as Hcases.
  cbv zeta in Hcases. rewrite <- Hc in Hcases.
  unfold MAX_STEP_PER_SAMPLE_MM in Hcases, Hfar.
  set (x := distFiltered st) in *. set (t := target_mm st) in *.
  set (c := round_mm x) in *. set (R := lastGoodMm st) in *.
  destruct Hcases as [[Hgt E]|[[Hlt E]|[Habs _]]]; [| |lia].
  - (* the reading is more than 80 above: the target is [c + 80] *)
    assert (HT : (inject_Z t == inject_Z c + 80)%Q).
    { rewrite E, inject_Z_plus. reflexivity. }
    specialize (Hup ltac:(lra)).
    assert (Hlo : c + 19 <= round_mm (ema x t)).
    { apply round_mm_lower; try assumption; try lra.
      rewrite inject_Z_plus. change (inject_Z 19) with 19%Q. lra. }
    assert (Hhi : round_mm (ema x t) <= t).
    { apply round_mm_le; try assumption; lra. }
    lia.
  - (* the reading is more than 80 below: the target is [c - 80] *)
    assert (HT : (inject_Z t == inject_Z c - 80)%Q).
    { rewrite E. unfold Z.sub. rewrite inject_Z_plus. reflexivity. }
    specialize (Hdown ltac:(lra)).
    assert (Hlo : t <= round_mm (ema x t)).
    { apply round_mm_ge; try assumption; lra. }
    assert (Hhi : round_mm (ema x t) <= c - 19).
    { apply round_mm_le; try assumption; try lra.
      unfold Z.sub. rewrite inject_Z_plus. change (inject_Z (- (19))) with (-19)%Q. lra. }
    lia.
Qed.

(** X15. While the held reading is more than 80 mm from the printed
    value, each tick brings the printed value between 19 and 21 mm closer
    to it: a large jump is followed at about 20 mm per tick. *)
Theorem clamped_tracking_speed (inputs : list RawRange) (raw : RawRange) :
  hasValidDistance (final_state initial_state inputs) = true ->
  Z.abs (lastGoodMm (step (final_state initial_state inputs) raw)
         - out_mm (final_state initial_state inputs)) > MAX_STEP_PER_SAMPLE_MM ->
  19 <= Z.abs (lastGoodMm (step (final_state initial_state inputs) raw)
               - out_mm (final_state initial_state inputs))
        - Z.abs (lastGoodMm (step (final_state initial_state inputs) raw)
                 - out_mm (step (final_state initial_state inputs) raw))
     <= 21.
Proof.
  intros Hv. set (st := final_state initial_state inputs) in *.
  assert (Hok : state_ok st) by (apply final_state_ok, initial_ok).
  pose proof (accept_ok st (raw_long raw) Hok) as Hok1.
  pose proof (accept_keeps_valid st (raw_long raw) Hv) as Hv1.
  pose proof (tick_clamped_advance (accept st (raw_long raw)) Hok1 Hv1) as H.
  rewrite accept_distFiltered in H by assumption.
  unfold out_mm. rewrite Hv, (step_keeps_valid st raw Hv).
  rewrite step_lastGood, step_distFiltered by assumption. exact H.
Qed.

Lemma clamped_tracking_speed_witness :
  hasValidDistance (final_state initial_state [Distance 500]) = true /\
  Z.abs (lastGoodMm (step (final_state initial_state [Distance 500]) (Distance 1800))
         - out_mm (final_state initial_state [Distance 500])) > MAX_STEP_PER_SAMPLE_MM /\
  19 <= Z.abs (lastGoodMm (step (final_state initial_state [Distance 500]) (Distance 1800))
               - out_mm (final_state initial_state [Distance 500]))
        - Z.abs (lastGoodMm (step (final_state initial_state [Distance 500]) (Distance 1800))
                 - out_mm (step (final_state initial_state [Distance 500]) (Distance 1800)))
     <= 21.
Proof.
  split; [reflexivity|]. split; [vm_compute; reflexivity|].
  apply (clamped_tracking_speed [Distance 500] (Distance 1800));
    [reflexivity|vm_compute; reflexivity].
Defined.

(** ** Settling of the printed value *)

Lemma gap_bound_120_small : (gap_bound 120 1950 <= 2 # 5)%Q.
Proof. vm_compute. discriminate. Qed.

Lemma gap_bound_small (n : nat) : (120 <= n)%nat -> (gap_bound n 1950 <= 2 # 5)%Q.
Proof.
  induction 1 as [|n Hle IH]; [apply gap_bound_120_small|].
  cbn [gap_bound]. rewrite Qred_correct. apply gap_step_upper; lra.
Qed.

(** X16. From any initialized state the filter reaches, once a constant
    valid reading [V] has been repeated 120 times or more the printed
    value is exactly [V]. *)
Theorem printed_value_settles (inputs : list RawRange) (V : Z) (n : nat) :
  hasValidDistance (final_state initial_state inputs) = true ->
  DIST_MIN_MM <= V <= DIST_MAX_MM ->
  (120 <= n)%nat ->
  out_mm (final_state (final_state initial_state inputs) (repeat (Distance V) n)) = V.
Proof.
  intros Hv HV Hn. set (st := final_state initial_state inputs) in *.
  assert (Hok : state_ok st) by (apply final_state_ok, initial_ok).
  set (stn := final_state st (repeat (Distance V) n)).
  assert (Hokn : state_ok stn) by (apply final_state_ok; assumption).
  assert (Hvn : hasValidDistance stn = true) by (apply final_state_keeps_valid; assumption).
  assert (Hgap : (Qabs (inject_Z V - to_Q (distFiltered stn)) <= 2 # 5)%Q).
  { eapply Qle_trans; [apply constant_gap; assumption|].
    eapply Qle_trans; [|apply (gap_bound_small n Hn)].
    apply gap_bound_mono.
    destruct (Hok Hv) as (_ & [H1 H2] & _).
    change (inject_Z DIST_MIN_MM) with 50%Q in H1.
    change (inject_Z DIST_MAX_MM) with 2000%Q in H2.
    assert (HVq : (50 <= inject_Z V <= 2000)%Q).
    { change 50%Q with (inject_Z DIST_MIN_MM). change 2000%Q with (inject_Z DIST_MAX_MM).
      split; apply inject_Z_le; lia. }
    apply Qabs_le_of_bounds. lra. }
  pose proof (Qabs_bounds (inject_Z V - to_Q (distFiltered stn))) as Hab.
  rewrite (state_round_exact stn Hokn Hvn).
  set (y := (to_Q (distFiltered stn) + (1 # 2))%Q).
  apply Z.le_antisymm.
  - pose proof (Qfloor_le y) as Hfl.
    assert (Hlt : (inject_Z (Qfloor y) < inject_Z (V + 1))%Q).
    { rewrite inject_Z_plus. change (inject_Z 1) with 1%Q. subst y. lra. }
    rewrite <- Zlt_Qlt in Hlt. lia.
  - rewrite <- (Qfloor_Z V) at 1. apply Qfloor_resp_le. subst y. lra.
Qed.

Lemma printed_value_settles_witness :
  hasValidDistance (final_state initial_state [Distance 100]) = true /\
  DIST_MIN_MM <= 2000 <= DIST_MAX_MM /\ (120 <= 120)%nat /\
  out_mm (final_state (final_state initial_state [Distance 100]) (repeat (Distance 2000) 120))
    = 2000.
Proof.
  split; [reflexivity|]. split; [unfold DIST_MIN_MM, DIST_MAX_MM; lia|]. split; [lia|].
  apply (printed_value_settles [Distance 100] 2000 120);
    [reflexivity|unfold DIST_MIN_MM, DIST_MAX_MM; lia|lia].
Defined.
